(** * TV show browser: state, cache and filter model

    A shallow embedding of the level-400 script of the TV show project
    (the page script with the shows listing, the per-show episode cache and
    the URL-keyed fetch cache) and of the properties its specification
    states about it.

    Conventions.
    - JavaScript strings are [string]; the built-ins whose result depends on
      Unicode tables or on the collation data of the browser
      ([toLowerCase], [trim], [localeCompare], [DOMParser]) are the fields
      of the class [Host]; [AsciiHost] is an executable instance on ASCII
      text, used for the concrete runs.
    - Numbers that the script only uses as integers (ids, season and episode
      numbers) are [Z]; [String(n)] is decimal printing.
    - The plain object [episodesByShowId] and the [Map] [fetchCache] are
      finite maps keyed by the property name, respectively the URL.
    - A promise is its settlement state; a suspended [async] function is a
      continuation queued on the URL whose request it awaits. *)

From stdpp Require Import gmap strings list fin_maps pretty sorting.
From Stdlib Require Import Ascii.

Open Scope Z_scope.

(** ** String built-ins that do not depend on the host *)

Module Js.

(** [String(n)] for an integer-valued number. *)
Definition String_ (n : Z) : string := pretty n.

(** Truthiness of a string: only the empty string is falsy. *)
Definition truthy (s : string) : bool :=
  match s with
  | EmptyString => false
  | String _ _ => true
  end.

(** [s.includes(sub)]: [sub] occurs in [s] as a contiguous substring. *)
Fixpoint includes (s sub : string) : bool :=
  String.prefix sub s ||
  match s with
  | EmptyString => false
  | String _ s' => includes s' sub
  end.

(** The filler of [padStart]: the first [n] characters of [pad] repeated;
    [cur] is what is left of the current copy. *)
Fixpoint filler (n : nat) (pad cur : string) : string :=
  match n with
  | O => ""
  | S n' =>
      match cur with
      | String c cur' => String c (filler n' pad cur')
      | EmptyString =>
          match pad with
          | String c pad' => String c (filler n' pad pad')
          | EmptyString => ""
          end
      end
  end.

(** [s.padStart(targetLength, padString)]. *)
Definition padStart (targetLength : nat) (padString : string) (s : string)
  : string :=
  if (targetLength <=? String.length s)%nat then s
  else filler (targetLength - String.length s) padString padString +:+ s.

(** [parts.join(sep)]. *)
Fixpoint join (sep : string) (parts : list string) : string :=
  match parts with
  | [] => ""
  | [p] => p
  | p :: rest => p +:+ sep +:+ join sep rest
  end.

(** Is there a [">"] somewhere in [s]? *)
Fixpoint hasClose (s : string) : bool :=
  match s with
  | EmptyString => false
  | String c s' => if Ascii.eqb c ">" then true else hasClose s'
  end.

(** [s.replace(/<[^>]*>/g, '')]: every ["<"] that is followed, later in
    the string, by a [">"] is removed together with everything up to and
    including the first such [">"]; [inTag] says that the scan is inside a
    match. *)
Fixpoint stripTagsFrom (inTag : bool) (s : string) : string :=
  match s with
  | EmptyString => ""
  | String c s' =>
      if inTag then
        if Ascii.eqb c ">" then stripTagsFrom false s'
        else stripTagsFrom true s'
      else if Ascii.eqb c "<" then
        if hasClose s' then stripTagsFrom true s' else String c s'
      else String c (stripTagsFrom false s')
  end.

Definition stripTags (s : string) : string := stripTagsFrom false s.

(** [array.sort(compare)] is stable (ECMAScript 2019); it is embedded as the
    stable insertion sort: [x] goes in front of the first element that does
    not compare below it. *)
Section Sort.
Context {A : Type} (compare : A → A → comparison).

Fixpoint insertSorted (x : A) (l : list A) : list A :=
  match l with
  | [] => [x]
  | y :: l' =>
      match compare x y with
      | Gt => y :: insertSorted x l'
      | _ => x :: y :: l'
      end
  end.

Fixpoint sort (l : list A) : list A :=
  match l with
  | [] => []
  | x :: l' => insertSorted x (sort l')
  end.
End Sort.

End Js.

(** ** The host: built-ins that depend on Unicode and collation data *)

Class Host := {
  (** [s.toLowerCase()] *)
  toLowerCase : string → string;
  (** [s.trim()] *)
  trim : string → string;
  (** the sign of [a.localeCompare(b, 'en', { sensitivity: 'base' })] *)
  localeCompare : string → string → comparison;
  (** [new DOMParser().parseFromString(html, 'text/html').body.textContent];
      [None] when the parser throws, [Some ""] when there is no body *)
  bodyTextContent : string → option string;
}.

(** What the script relies on when it hands [localeCompare] to [sort]: the
    comparison is a consistent comparator (swapping the operands flips the
    sign, and "not above" is transitive). *)
Class HostLaws (H : Host) : Prop := {
  localeCompare_antisym a b :
    localeCompare b a = CompOpp (localeCompare a b);
  localeCompare_trans a b c :
    localeCompare a b ≠ Gt → localeCompare b c ≠ Gt → localeCompare a c ≠ Gt;
}.

(** *** An executable host for ASCII text *)

Module Ascii_.

Definition lowerChar (c : ascii) : ascii :=
  let n := nat_of_ascii c in
  if ((65 <=? n) && (n <=? 90))%nat then ascii_of_nat (n + 32) else c.

Fixpoint toLowerCase (s : string) : string :=
  match s with
  | EmptyString => ""
  | String c s' => String (lowerChar c) (toLowerCase s')
  end.

(** Tab, line feed, vertical tab, form feed, carriage return, space. *)
Definition isSpace (c : ascii) : bool :=
  let n := nat_of_ascii c in
  ((9 <=? n) && (n <=? 13) || (n =? 32))%nat.

Fixpoint trimStart (s : string) : string :=
  match s with
  | EmptyString => ""
  | String c s' => if isSpace c then trimStart s' else s
  end.

Fixpoint trimEnd (s : string) : string :=
  match s with
  | EmptyString => ""
  | String c s' =>
      match trimEnd s' with
      | EmptyString => if isSpace c then "" else String c ""
      | t => String c t
      end
  end.

Definition trim (s : string) : string := trimEnd (trimStart s).

Definition localeCompare (a b : string) : comparison :=
  String.compare (toLowerCase a) (toLowerCase b).

End Ascii_.

Instance AsciiHost : Host := {|
  toLowerCase := Ascii_.toLowerCase;
  trim := Ascii_.trim;
  localeCompare := Ascii_.localeCompare;
  bodyTextContent := fun html => Some (Js.stripTags html);
|}.

(** ** Data model *)

(** A show object of the API, with the fields the listing logic reads. *)
Module Show.
Record t := mk {
  id : Z;
  name : string;
  summary : option string;        (* [None]: null or absent *)
  genres : option (list string);  (* [None]: null or absent *)
}.
End Show.

(** An episode object of the API, with the fields the listing logic reads. *)
Module Episode.
Record t := mk {
  id : Z;
  season : Z;
  number : Z;
  name : string;
  summary : option string;        (* [None]: null or absent *)
}.
End Episode.

Inductive Status := idle | loading | loaded | error.
Inductive View := showsView | episodesView.

(** The global [state] object. *)
Record State := mkState {
  status : Status;
  errorMessage : string;
  currentView : View;
  shows : list Show.t;
  showSearchText : string;
  episodesByShowId : gmap string (list Episode.t);
  selectedShowId : string;
  episodeSearchText : string;
  selectedEpisodeId : string;
}.

Definition initialState : State := {|
  status := idle;
  errorMessage := "";
  currentView := showsView;
  shows := [];
  showSearchText := "";
  episodesByShowId := ∅;
  selectedShowId := "";
  episodeSearchText := "";
  selectedEpisodeId := "";
|}.

Definition set_status (v : Status) (s : State) : State :=
  mkState v (errorMessage s) (currentView s) (shows s) (showSearchText s)
    (episodesByShowId s) (selectedShowId s) (episodeSearchText s)
    (selectedEpisodeId s).
Definition set_errorMessage (v : string) (s : State) : State :=
  mkState (status s) v (currentView s) (shows s) (showSearchText s)
    (episodesByShowId s) (selectedShowId s) (episodeSearchText s)
    (selectedEpisodeId s).
Definition set_currentView (v : View) (s : State) : State :=
  mkState (status s) (errorMessage s) v (shows s) (showSearchText s)
    (episodesByShowId s) (selectedShowId s) (episodeSearchText s)
    (selectedEpisodeId s).
Definition set_shows (v : list Show.t) (s : State) : State :=
  mkState (status s) (errorMessage s) (currentView s) v (showSearchText s)
    (episodesByShowId s) (selectedShowId s) (episodeSearchText s)
    (selectedEpisodeId s).
Definition set_showSearchText (v : string) (s : State) : State :=
  mkState (status s) (errorMessage s) (currentView s) (shows s) v
    (episodesByShowId s) (selectedShowId s) (episodeSearchText s)
    (selectedEpisodeId s).
Definition set_episodesByShowId (v : gmap string (list Episode.t)) (s : State)
  : State :=
  mkState (status s) (errorMessage s) (currentView s) (shows s)
    (showSearchText s) v (selectedShowId s) (episodeSearchText s)
    (selectedEpisodeId s).
Definition set_selectedShowId (v : string) (s : State) : State :=
  mkState (status s) (errorMessage s) (currentView s) (shows s)
    (showSearchText s) (episodesByShowId s) v (episodeSearchText s)
    (selectedEpisodeId s).
Definition set_episodeSearchText (v : string) (s : State) : State :=
  mkState (status s) (errorMessage s) (currentView s) (shows s)
    (showSearchText s) (episodesByShowId s) (selectedShowId s) v
    (selectedEpisodeId s).
Definition set_selectedEpisodeId (v : string) (s : State) : State :=
  mkState (status s) (errorMessage s) (currentView s) (shows s)
    (showSearchText s) (episodesByShowId s) (selectedShowId s)
    (episodeSearchText s) v.

(** ** Helpers of the script *)

(** [formatEpisodeCode(seasonNumber, episodeNumber)] *)
Definition formatEpisodeCode (seasonNumber episodeNumber : Z) : string :=
  let season := Js.padStart 2 "0" (Js.String_ seasonNumber) in
  let number := Js.padStart 2 "0" (Js.String_ episodeNumber) in
  "S" +:+ season +:+ "-E" +:+ number.

(** [value || ''] for a string field that may be null or absent. *)
Definition orEmpty (value : option string) : string := default "" value.

(** [extractText(htmlString)]: the text of the parsed body; the tag-stripping
    fallback runs when the parser throws. *)
Definition extractText `{Host} (htmlString : string) : string :=
  if negb (Js.truthy htmlString) then ""
  else
    match bodyTextContent htmlString with
    | Some text => if Js.truthy text then text else ""
    | None => Js.stripTags htmlString
    end.

(** ** Selection and filter logic *)

(** The callback of [state.shows.filter] in [renderShowsView]; [searchText]
    is the lowered and trimmed search text. *)
Definition showMatches `{Host} (searchText : string) (show : Show.t) : bool :=
  if negb (Js.truthy searchText) then true
  else
    let name := toLowerCase (Show.name show) in
    let summary := toLowerCase (extractText (orEmpty (Show.summary show))) in
    let genres :=
      toLowerCase (Js.join " " (default [] (Show.genres show))) in
    Js.includes name searchText
    || Js.includes summary searchText
    || Js.includes genres searchText.

(** [filteredShows] of [renderShowsView]. *)
Definition filteredShows `{Host} (shows : list Show.t) (showSearchText : string)
  : list Show.t :=
  let searchText := trim (toLowerCase showSearchText) in
  List.filter (showMatches searchText) shows.

(** The callback of the selection branch of [renderEpisodesView]. *)
Definition episodeIsSelected (selectedEpisodeId : string) (episode : Episode.t)
  : bool :=
  String.eqb (Js.String_ (Episode.id episode)) selectedEpisodeId.

(** The callback of the search branch of [renderEpisodesView]. *)
Definition episodeMatches `{Host} (searchText : string) (episode : Episode.t)
  : bool :=
  let plainSummary := extractText (orEmpty (Episode.summary episode)) in
  Js.includes (toLowerCase (Episode.name episode)) searchText
  || Js.includes (toLowerCase plainSummary) searchText.

(** [filteredEpisodes] of [renderEpisodesView]. *)
Definition filteredEpisodes `{Host} (episodes : list Episode.t)
    (episodeSearchText selectedEpisodeId : string) : list Episode.t :=
  let searchText := trim (toLowerCase episodeSearchText) in
  if Js.truthy selectedEpisodeId then
    List.filter (episodeIsSelected selectedEpisodeId) episodes
  else if Js.truthy searchText then
    List.filter (episodeMatches searchText) episodes
  else episodes.

(** ** The page *)

(** What the [root] element shows.  The card markup is left out: a listing
    is the sequence of objects it has a card for. *)
Inductive Root :=
  | rootBlank
  | rootText (textContent : string)
  | rootShowsList (cards : list Show.t)
  | rootEpisodesPage (heading : option string) (cards : list Episode.t).

(** The elements the script writes to: the [root] element, the two count
    texts, the options of the two select controls (an [option] element is
    its text and its value), and the current values of the four controls.
    Markup and class names are left out. *)
Record Dom := mkDom {
  root : Root;
  showsCountText : string;
  searchResults : string;
  showSelectOptions : list (string * string);
  episodeSelectOptions : list (string * string);
  showSearchValue : string;       (* [showSearchInput.value] *)
  showSelectValue : string;       (* [showSelectControl.value] *)
  episodeSelectValue : string;    (* [episodeSelectControl.value] *)
  episodeSearchValue : string;    (* [episodeSearchInput.value] *)
}.

Definition initialDom : Dom := mkDom rootBlank "" "" [] [] "" "" "" "".

Definition set_root (v : Root) (d : Dom) : Dom :=
  mkDom v (showsCountText d) (searchResults d) (showSelectOptions d)
    (episodeSelectOptions d) (showSearchValue d) (showSelectValue d)
    (episodeSelectValue d) (episodeSearchValue d).
Definition set_showsCountText (v : string) (d : Dom) : Dom :=
  mkDom (root d) v (searchResults d) (showSelectOptions d)
    (episodeSelectOptions d) (showSearchValue d) (showSelectValue d)
    (episodeSelectValue d) (episodeSearchValue d).
Definition set_searchResults (v : string) (d : Dom) : Dom :=
  mkDom (root d) (showsCountText d) v (showSelectOptions d)
    (episodeSelectOptions d) (showSearchValue d) (showSelectValue d)
    (episodeSelectValue d) (episodeSearchValue d).
Definition set_showSelectOptions (v : list (string * string)) (d : Dom) : Dom :=
  mkDom (root d) (showsCountText d) (searchResults d) v
    (episodeSelectOptions d) (showSearchValue d) (showSelectValue d)
    (episodeSelectValue d) (episodeSearchValue d).
Definition set_episodeSelectOptions (v : list (string * string)) (d : Dom)
  : Dom :=
  mkDom (root d) (showsCountText d) (searchResults d) (showSelectOptions d) v
    (showSearchValue d) (showSelectValue d) (episodeSelectValue d)
    (episodeSearchValue d).
Definition set_showSearchValue (v : string) (d : Dom) : Dom :=
  mkDom (root d) (showsCountText d) (searchResults d) (showSelectOptions d)
    (episodeSelectOptions d) v (showSelectValue d) (episodeSelectValue d)
    (episodeSearchValue d).
Definition set_showSelectValue (v : string) (d : Dom) : Dom :=
  mkDom (root d) (showsCountText d) (searchResults d) (showSelectOptions d)
    (episodeSelectOptions d) (showSearchValue d) v (episodeSelectValue d)
    (episodeSearchValue d).
Definition set_episodeSelectValue (v : string) (d : Dom) : Dom :=
  mkDom (root d) (showsCountText d) (searchResults d) (showSelectOptions d)
    (episodeSelectOptions d) (showSearchValue d) (showSelectValue d) v
    (episodeSearchValue d).
Definition set_episodeSearchValue (v : string) (d : Dom) : Dom :=
  mkDom (root d) (showsCountText d) (searchResults d) (showSelectOptions d)
    (episodeSelectOptions d) (showSearchValue d) (showSelectValue d)
    (episodeSelectValue d) v.

(** [select.value = v]: the option with that value becomes the selected
    one; when the select has no such option, none is selected and
    [select.value] reads as the empty string. *)
Definition selectValue (options : list (string * string)) (v : string)
  : string :=
  if existsb (fun option => String.eqb option.2 v) options then v else "".

(** ** Requests and promises *)

(** The body of a successful response, as [response.json()] returns it. *)
Inductive Json :=
  | JShows (data : list Show.t)
  | JEpisodes (data : list Episode.t).

(** The promise [request] of [getJson], by its settlement state. *)
Inductive Promise :=
  | pending
  | fulfilled (value : Json)
  | rejected.

(** How a request ends: [httpOk] is an ok response with a JSON body;
    [httpFailed] is a rejected [fetch], a response that is not ok, or a body
    that is not JSON. *)
Inductive Outcome :=
  | httpOk (body : Json)
  | httpFailed.

(** An [async] function suspended at its [await]: [setup] (inside
    [fetchTVShows]) or [openShow(tvShowId)]. *)
Inductive Cont :=
  | setupCont
  | openShowCont (tvShowId : Z).

(** The page at run time: the two top-level objects of the script, the
    document, the calls made to [fetch] (most recent first), the suspended
    functions in the order they suspended, each with the URL of the request
    it awaits, and whether [window.onload] has run. *)
Record World := mkWorld {
  state : State;
  fetchCache : gmap string Promise;
  dom : Dom;
  fetchCalls : list string;
  suspended : list (string * Cont);
  listening : bool;
}.

Definition initialWorld : World :=
  mkWorld initialState ∅ initialDom [] [] false.

Definition upd_state (f : State → State) (w : World) : World :=
  mkWorld (f (state w)) (fetchCache w) (dom w) (fetchCalls w) (suspended w)
    (listening w).
Definition upd_dom (f : Dom → Dom) (w : World) : World :=
  mkWorld (state w) (fetchCache w) (f (dom w)) (fetchCalls w) (suspended w)
    (listening w).
Definition upd_fetchCache (f : gmap string Promise → gmap string Promise)
    (w : World) : World :=
  mkWorld (state w) (f (fetchCache w)) (dom w) (fetchCalls w) (suspended w)
    (listening w).
Definition upd_fetchCalls (f : list string → list string) (w : World) : World :=
  mkWorld (state w) (fetchCache w) (dom w) (f (fetchCalls w)) (suspended w)
    (listening w).
Definition upd_suspended (f : list (string * Cont) → list (string * Cont))
    (w : World) : World :=
  mkWorld (state w) (fetchCache w) (dom w) (fetchCalls w) (f (suspended w))
    (listening w).
Definition set_listening (v : bool) (w : World) : World :=
  mkWorld (state w) (fetchCache w) (dom w) (fetchCalls w) (suspended w) v.

Definition showsUrl : string := "https://api.tvmaze.com/shows".

Definition episodesUrl (tvShowID : Z) : string :=
  "https://api.tvmaze.com/shows/" +:+ Js.String_ tvShowID +:+ "/episodes".

(** [getJson(url)]: the promise it returns is the entry of [url] in
    [fetchCache] after the call.  On a miss the request is started (one call
    to [fetch]) and its promise is stored at once, still pending. *)
Definition getJson (url : string) (w : World) : World :=
  match fetchCache w !! url with
  | Some _ => w
  | None =>
      upd_fetchCache (insert url pending) (upd_fetchCalls (cons url) w)
  end.

(** ** Rendering *)

(** [renderStatus()] *)
Definition renderStatus (w : World) : World :=
  match status (state w) with
  | loading => upd_dom (set_root (rootText "Loading…")) w
  | error =>
      let message :=
        if Js.truthy (errorMessage (state w)) then errorMessage (state w)
        else "An error occurred while loading episodes." in
      upd_dom (set_root (rootText message)) w
  | _ => w
  end.

(** [populateTVShowSelectControl(tvShows)] *)
Definition populateTVShowSelectControl (tvShows : list Show.t) (w : World)
  : World :=
  let options :=
    ("Jump to show", "")
    :: map (fun tvShow => (Show.name tvShow, Js.String_ (Show.id tvShow)))
         tvShows in
  let w := upd_dom (set_showSelectOptions options) w in
  (* the select was emptied and filled: its first option, the placeholder,
     is the selected one *)
  upd_dom (set_showSelectValue "") w.

(** [populateEpisodeSelectControl(episodes, selectedEpisodeId)] *)
Definition populateEpisodeSelectControl (episodes : list Episode.t)
    (selectedEpisodeId : string) (w : World) : World :=
  let options :=
    ("All Episodes", "")
    :: map (fun episode =>
              (formatEpisodeCode (Episode.season episode)
                 (Episode.number episode)
               +:+ " - " +:+ Episode.name episode,
               Js.String_ (Episode.id episode)))
         episodes in
  let w := upd_dom (set_episodeSelectOptions options) w in
  upd_dom (set_episodeSelectValue (selectValue options selectedEpisodeId)) w.

(** [renderShowsView()] *)
Definition renderShowsView `{Host} (w : World) : World :=
  let filtered :=
    filteredShows (shows (state w)) (showSearchText (state w)) in
  let countLabel :=
    if (length filtered =? 1)%nat then "Found 1 show"
    else "Found " +:+ Js.String_ (Z.of_nat (length filtered)) +:+ " shows" in
  let w := upd_dom (set_showSearchValue (showSearchText (state w))) w in
  let w := upd_dom (set_showsCountText countLabel) w in
  upd_dom (set_root (rootShowsList filtered)) w.

(** [makePageForEpisodes(episodeList, showName)] *)
Definition makePageForEpisodes (episodeList : list Episode.t)
    (showName : string) (w : World) : World :=
  let heading := if Js.truthy showName then Some showName else None in
  upd_dom (set_root (rootEpisodesPage heading episodeList)) w.

(** [renderEpisodesView()] *)
Definition renderEpisodesView `{Host} (w : World) : World :=
  let showId := selectedShowId (state w) in
  let show :=
    List.find
      (fun candidate => String.eqb (Js.String_ (Show.id candidate)) showId)
      (shows (state w)) in
  if negb (Js.truthy showId) then
    upd_dom (set_root (rootText "Select a show to view episodes.")) w
  else
    let episodes := default [] (episodesByShowId (state w) !! showId) in
    let w :=
      populateEpisodeSelectControl episodes (selectedEpisodeId (state w)) w in
    let w :=
      upd_dom (set_episodeSearchValue (episodeSearchText (state w))) w in
    let w :=
      if String.eqb (episodeSelectValue (dom w)) (selectedEpisodeId (state w))
      then w
      else
        upd_dom
          (set_episodeSelectValue
             (selectValue (episodeSelectOptions (dom w))
                (selectedEpisodeId (state w))))
          w in
    let filtered :=
      filteredEpisodes episodes (episodeSearchText (state w))
        (selectedEpisodeId (state w)) in
    let w :=
      upd_dom
        (set_searchResults
           ("Displaying " +:+ Js.String_ (Z.of_nat (length filtered))
            +:+ " of " +:+ Js.String_ (Z.of_nat (length episodes))
            +:+ " episodes"))
        w in
    makePageForEpisodes filtered
      (match show with Some s => Show.name s | None => "Episodes" end) w.

(** [render()] *)
Definition render `{Host} (w : World) : World :=
  match status (state w) with
  | loading | error => renderStatus w
  | _ =>
      match currentView (state w) with
      | showsView => renderShowsView w
      | episodesView => renderEpisodesView w
      end
  end.

(** ** Control flow *)

(** The comparator handed to [data.sort] in [fetchTVShows]. *)
Definition compareShows `{Host} (first second : Show.t) : comparison :=
  localeCompare (Show.name first) (Show.name second).

(** The end of [openShow], after the [if]: populate the episode select and
    render. *)
Definition openShowFinish `{Host} (tvShowId : Z) (w : World) : World :=
  let episodes :=
    default [] (episodesByShowId (state w) !! Js.String_ tvShowId) in
  render (populateEpisodeSelectControl episodes "" w).

(** A suspended function runs on from its [await] once the promise [p] of
    the request of [url] is settled.

    [setupCont]: the rest of [fetchTVShows] sorts the array in place (it is
    the array that the promise in [fetchCache] holds) and the [try] block of
    [setup] goes on; a rejection runs its [catch] block.

    [openShowCont]: the episodes are stored and [openShow] goes on; a
    rejection leaves [openShow] at the [await], nothing after it runs.

    The API answers the URL of the shows with shows and the URL of the
    episodes of a show with episodes ([answers], the guard of [settle]), and
    each function awaits the request it made: in a session [setup] never
    receives episodes and [openShow] never receives shows (lemma
    [awaited_shapes]); these two cases, which no run of the page reaches,
    fall under the last branch of each [match]. *)
Definition resume `{Host} (url : string) (k : Cont) (p : Promise) (w : World)
  : World :=
  match k with
  | setupCont =>
      match p with
      | fulfilled (JShows data) =>
          let alphabeticallyOrdered := Js.sort compareShows data in
          let w :=
            upd_fetchCache
              (insert url (fulfilled (JShows alphabeticallyOrdered))) w in
          let w := upd_state (set_shows alphabeticallyOrdered) w in
          let w := upd_state (set_status loaded) w in
          let w := upd_state (set_currentView showsView) w in
          render (populateTVShowSelectControl (shows (state w)) w)
      | _ =>
          let w := upd_state (set_status error) w in
          let w :=
            upd_state
              (set_errorMessage "Unable to load shows. Please try again.") w in
          renderStatus w
      end
  | openShowCont tvShowId =>
      match p with
      | fulfilled (JEpisodes episodes) =>
          let w :=
            upd_state
              (fun s =>
                 set_episodesByShowId
                   (<[Js.String_ tvShowId := episodes]> (episodesByShowId s))
                   s)
              w in
          let w := upd_state (set_status loaded) w in
          openShowFinish tvShowId w
      | _ => w
      end
  end.

(** [await] on the promise of [url]: a function that awaits a settled
    promise runs on before any other event is handled; one that awaits a
    pending promise is suspended. *)
Definition await `{Host} (url : string) (k : Cont) (w : World) : World :=
  match fetchCache w !! url with
  | Some pending => upd_suspended (fun q => app q [(url, k)]) w
  | Some p => resume url k p w
  | None => w
  end.

(** [setup()], up to the [await]; [attachListeners()] is the flag
    [listening]. *)
Definition setup `{Host} (w : World) : World :=
  let w := upd_state (set_status loading) w in
  let w := renderStatus w in
  let w := set_listening true w in
  let w := getJson showsUrl w in
  await showsUrl setupCont w.

(** [openShow(tvShowId)] *)
Definition openShow `{Host} (tvShowId : Z) (w : World) : World :=
  let w := upd_state (set_selectedShowId (Js.String_ tvShowId)) w in
  let w := upd_state (set_currentView episodesView) w in
  let w := upd_state (set_selectedEpisodeId "") w in
  let w := upd_state (set_episodeSearchText "") w in
  let w :=
    upd_dom
      (fun d =>
         set_showSelectValue
           (selectValue (showSelectOptions d) (Js.String_ tvShowId)) d)
      w in
  match episodesByShowId (state w) !! Js.String_ tvShowId with
  | None =>
      let w := upd_state (set_status loading) w in
      let w := renderStatus w in
      let w := getJson (episodesUrl tvShowId) w in
      await (episodesUrl tvShowId) (openShowCont tvShowId) w
  | Some _ => openShowFinish tvShowId w
  end.

(** [episodeSelectionDidChange(event)], with [event.target.value] *)
Definition episodeSelectionDidChange `{Host} (value : string) (w : World)
  : World :=
  render (upd_state (set_selectedEpisodeId value) w).

(** [episodeSearchDidChange(event)], with [event.target.value] *)
Definition episodeSearchDidChange `{Host} (value : string) (w : World)
  : World :=
  let w := upd_state (set_episodeSearchText value) w in
  let w := upd_state (set_selectedEpisodeId "") w in
  let w :=
    upd_dom
      (fun d =>
         set_episodeSelectValue (selectValue (episodeSelectOptions d) "") d)
      w in
  render w.

(** The [input] listener of the show search box. *)
Definition showSearchDidChange `{Host} (value : string) (w : World) : World :=
  render (upd_state (set_showSearchText value) w).

(** The [change] listener of the show select; [None] is the placeholder
    option, whose value is empty. *)
Definition showSelectDidChange `{Host} (value : option Z) (w : World) : World :=
  match value with
  | None => w
  | Some tvShowId => openShow tvShowId w
  end.

(** The [click] listener of the back button. *)
Definition backDidClick `{Host} (w : World) : World :=
  render (upd_state (set_currentView showsView) w).

(** When the request of [url] ends, its promise settles and the functions
    that await it run on, in the order they suspended; each reads the value
    the promise holds when it runs. *)
Definition resumeAt `{Host} (url : string) (w : World) (k : Cont) : World :=
  match fetchCache w !! url with
  | Some p => resume url k p w
  | None => w
  end.

Definition waitsFor (url : string) (entry : string * Cont) : bool :=
  String.eqb entry.1 url.

(** The contract of the API: a request can fail; when it succeeds, the URL
    of the shows is answered with shows and every other URL with
    episodes. *)
Definition answers (url : string) (outcome : Outcome) : bool :=
  match outcome with
  | httpOk (JShows _) => String.eqb url showsUrl
  | httpOk (JEpisodes _) => negb (String.eqb url showsUrl)
  | httpFailed => true
  end.

(** The request of [url] ends with [outcome].  Only a pending request can
    end, and only in a way the API allows; any other response does not
    occur and changes nothing. *)
Definition settle `{Host} (url : string) (outcome : Outcome) (w : World)
  : World :=
  match fetchCache w !! url with
  | Some pending =>
      if answers url outcome then
        let p :=
          match outcome with
          | httpOk body => fulfilled body
          | httpFailed => rejected
          end in
        let waiting := List.filter (waitsFor url) (suspended w) in
        let w := upd_fetchCache (insert url p) w in
        let w :=
          upd_suspended (List.filter (fun e => negb (waitsFor url e))) w in
        foldl (resumeAt url) w (map snd waiting)
      else w
  | _ => w
  end.

(** What can happen to the page. *)
Inductive Event :=
  | Load                                   (* [window.onload] *)
  | ShowSearchInput (value : string)
  | ShowSelectChange (value : option Z)
  | ShowCardActivate (tvShowId : Z)        (* click, Enter or Space on a card *)
  | EpisodeSelectChange (value : string)
  | EpisodeSearchInput (value : string)
  | BackClick
  | Response (url : string) (outcome : Outcome).

(** What the browser has done to the control when it dispatches the
    event: [event.target.value] is the value of the control. *)
Definition userInput (ev : Event) (w : World) : World :=
  match ev with
  | ShowSearchInput value => upd_dom (set_showSearchValue value) w
  | ShowSelectChange value =>
      upd_dom
        (set_showSelectValue
           (match value with
            | Some tvShowId => Js.String_ tvShowId
            | None => ""
            end))
        w
  | EpisodeSelectChange value => upd_dom (set_episodeSelectValue value) w
  | EpisodeSearchInput value => upd_dom (set_episodeSearchValue value) w
  | _ => w
  end.

(** One event, handled to its end.  The listeners exist once [setup] has
    attached them; [window.onload] fires once. *)
Definition step `{Host} (w : World) (ev : Event) : World :=
  let w := userInput ev w in
  match ev with
  | Load => if listening w then w else setup w
  | Response url outcome => settle url outcome w
  | ShowSearchInput value =>
      if listening w then showSearchDidChange value w else w
  | ShowSelectChange value =>
      if listening w then showSelectDidChange value w else w
  | ShowCardActivate tvShowId =>
      if listening w then openShow tvShowId w else w
  | EpisodeSelectChange value =>
      if listening w then episodeSelectionDidChange value w else w
  | EpisodeSearchInput value =>
      if listening w then episodeSearchDidChange value w else w
  | BackClick => if listening w then backDidClick w else w
  end.

Definition run `{Host} (events : list Event) (w : World) : World :=
  foldl step w events.

(** The worlds a session can be in. *)
Definition reachable `{Host} (w : World) : Prop :=
  ∃ events, w = run events initialWorld.

(** ** The words of the specification *)

(** [sub] occurs in [s] as a substring. *)
Definition contains (s sub : string) : Prop :=
  ∃ before after, s = before +:+ sub +:+ after.

(** The plain text of a summary: a summary that is absent or empty has no
    text; otherwise its text is the text content that the document parser
    of the host gives for the markup. *)
Definition plainTextOf `{Host} (summary : option string) : string :=
  match summary with
  | None => ""
  | Some EmptyString => ""
  | Some html =>
      match bodyTextContent html with
      | Some text => text
      | None => ""
      end
  end.

(** The genres of a show as one text: the genres in order, one space
    between two of them; no text for a show without a genre list. *)
Definition genreTextOf (genres : option (list string)) : string :=
  match genres with
  | None => ""
  | Some names => String.concat " " names
  end.

(** A show matches a folded search text: its folded name, its folded
    plain-text summary or its folded space-joined genre list contains it. *)
Definition showMatchesSpec `{Host} (folded : string) (show : Show.t) : Prop :=
  contains (toLowerCase (Show.name show)) folded
  ∨ contains (toLowerCase (plainTextOf (Show.summary show))) folded
  ∨ contains (toLowerCase (genreTextOf (Show.genres show))) folded.

(** An episode matches a folded search text: its folded name or its folded
    plain-text summary contains it. *)
Definition episodeMatchesSpec `{Host} (folded : string) (episode : Episode.t)
  : Prop :=
  contains (toLowerCase (Episode.name episode)) folded
  ∨ contains (toLowerCase (plainTextOf (Episode.summary episode))) folded.

(** The document parser of the host gives a text for every markup: it does
    not throw. *)
Definition parserTotal `{Host} : Prop :=
  ∀ html, is_Some (bodyTextContent html).

(** [k] zeros. *)
Fixpoint zeros (k : nat) : string :=
  match k with
  | O => ""
  | S k' => String "0" (zeros k')
  end.

(** [padded] is [digits] zero-padded on the left to at least [width]
    characters. *)
Definition zeroPadded (width : nat) (digits padded : string) : Prop :=
  ∃ k, padded = zeros k +:+ digits
       ∧ String.length padded = Nat.max width (String.length digits).

(** Two shows tie when the comparator of [fetchTVShows] returns zero. *)
Definition tie `{Host} (a b : Show.t) : bool :=
  match compareShows a b with
  | Eq => true
  | _ => false
  end.

(** [first] does not sort after [second]. *)
Definition notAfter `{Host} (first second : Show.t) : Prop :=
  compareShows first second ≠ Gt.

(** The event opens the show: its card is activated or it is picked in
    the show select. *)
Definition opens (tvShowId : Z) (ev : Event) : bool :=
  match ev with
  | ShowCardActivate i => Z.eqb i tvShowId
  | ShowSelectChange (Some i) => Z.eqb i tvShowId
  | _ => false
  end.

(** The event is a response to the request of [url]. *)
Definition respondsTo (url : string) (ev : Event) : bool :=
  match ev with
  | Response u _ => String.eqb u url
  | _ => false
  end.

(** The number of calls to [fetch] made for [url]. *)
Definition fetchCount (url : string) (w : World) : nat :=
  List.length (List.filter (String.eqb url) (fetchCalls w)).

(** A promise settles once: a pending promise may become anything, a
    rejected one stays rejected, a fulfilled one stays fulfilled. *)
Definition settledLike (p p' : Promise) : Prop :=
  match p with
  | pending => True
  | rejected => p' = rejected
  | fulfilled _ => ∃ value, p' = fulfilled value
  end.

(** Every entry of [m] is still in [m'], settled if it was. *)
Definition cacheGrows (m m' : gmap string Promise) : Prop :=
  ∀ url p, m !! url = Some p → ∃ p', m' !! url = Some p' ∧ settledLike p p'.

(** [w'] differs from [w] at most in [state] and in the document. *)
Definition sameNet (w w' : World) : Prop :=
  fetchCache w' = fetchCache w
  ∧ fetchCalls w' = fetchCalls w
  ∧ suspended w' = suspended w
  ∧ listening w' = listening w.

(** What holds of the requests in every session: no URL was handed to
    [fetch] twice, every URL handed to [fetch] has its promise in
    [fetchCache], and a suspended function awaits a pending promise. *)
Definition netInvariant (w : World) : Prop :=
  List.NoDup (fetchCalls w)
  ∧ (∀ url, In url (fetchCalls w) → is_Some (fetchCache w !! url))
  ∧ (∀ url k, In (url, k) (suspended w) → fetchCache w !! url = Some pending).

(** How the requests evolve from [w] to [w']: promises only settle, every
    new call to [fetch] is for a URL that had no promise in [fetchCache],
    and the invariant is kept. *)
Definition netStep (w w' : World) : Prop :=
  cacheGrows (fetchCache w) (fetchCache w')
  ∧ (∃ new, fetchCalls w' = (new ++ fetchCalls w)%list
            ∧ ∀ url, In url new → fetchCache w !! url = None)
  ∧ (netInvariant w → netInvariant w').

(** A suspended function awaits the request it made: [setup] the shows,
    [openShow(tvShowId)] the episodes of that show. *)
Definition ownUrl (entry : string * Cont) : Prop :=
  match entry.2 with
  | setupCont => entry.1 = showsUrl
  | openShowCont tvShowId => entry.1 = episodesUrl tvShowId
  end.

(** What holds of the episode cache in every session: the episodes stored
    under a key are those of a show whose request is in [fetchCache]. *)
Definition storeInvariant (w : World) : Prop :=
  (∀ entry, In entry (suspended w) → ownUrl entry)
  ∧ (∀ key episodes,
       episodesByShowId (state w) !! key = Some episodes →
       ∃ tvShowId,
         key = Js.String_ tvShowId
         ∧ is_Some (fetchCache w !! episodesUrl tvShowId)).

(** What holds of the answers in every session: a promise fulfilled with
    a value holds a value that the API gives for its URL. *)
Definition shapeInvariant (w : World) : Prop :=
  ∀ url body,
    fetchCache w !! url = Some (fulfilled body) →
    answers url (httpOk body) = true.

(** Every pending promise is awaited by a suspended function. *)
Definition waiterInvariant (w : World) : Prop :=
  ∀ url, fetchCache w !! url = Some pending → ∃ k, In (url, k) (suspended w).

(** The functions suspended on [url], in the order they suspended. *)
Definition waiters (url : string) (w : World) : list Cont :=
  map snd (List.filter (waitsFor url) (suspended w)).

(** ** A small catalogue, for the concrete runs *)

Definition showZeta : Show.t :=
  Show.mk 10 "Zeta" (Some "<p>A <b>space</b> opera.</p>")
    (Some ["Drama"; "Science-Fiction"]).
Definition showAlpha : Show.t := Show.mk 20 "alpha" None None.
Definition showBeta : Show.t := Show.mk 30 "Beta" (Some "") (Some []).

Definition sampleShows : list Show.t := [showZeta; showAlpha; showBeta].

Definition episodePilot : Episode.t :=
  Episode.mk 101 1 1 "Pilot" (Some "<p>It begins.</p>").
Definition episodeFallout : Episode.t :=
  Episode.mk 102 1 2 "Fallout" (Some "<p>After the <i>storm</i>.</p>").
Definition episodeHomecoming : Episode.t :=
  Episode.mk 103 1 3 "Homecoming" None.

Definition sampleEpisodes : list Episode.t :=
  [episodePilot; episodeFallout; episodeHomecoming].

(** The page is loaded and the shows arrive. *)
Definition sessionLoaded : list Event :=
  [Load; Response showsUrl (httpOk (JShows sampleShows))].

(** Then the first show is opened and its episodes arrive. *)
Definition sessionOpened : list Event :=
  (sessionLoaded
   ++ [ShowCardActivate 10;
       Response (episodesUrl 10) (httpOk (JEpisodes sampleEpisodes))])%list.

(** The first show is opened; before its episodes arrive the user goes
    back and opens the second show. *)
Definition sessionInterleaved : list Event :=
  (sessionLoaded ++ [ShowCardActivate 10; BackClick; ShowCardActivate 20])%list.

(** With the episodes of the first show on the page, the user searches
    for a word and then picks an episode in the episode select. *)
Definition sessionSelected : list Event :=
  (sessionOpened
   ++ [EpisodeSearchInput "pilot"; EpisodeSelectChange "102"])%list.

(** Then the user goes back and opens another show, whose request fails. *)
Definition sessionFailed : list Event :=
  (sessionOpened
   ++ [BackClick; ShowCardActivate 20; Response (episodesUrl 20) httpFailed])%list.

(** ** The document as a function of the state *)

(** What [render()] makes of the document [d] when the state is [s]:
    [render] reads nothing but [state] and the document. *)
Definition rendered `{Host} (s : State) (d : Dom) : Dom :=
  dom (render (mkWorld s ∅ d [] [] false)).

(** The document is what [render()] would make of it. *)
Definition inSync `{Host} (w : World) : Prop := render w = w.

(** ** The writes to the state *)

(** The assignments to [state] that the functions of the script make, each
    group as one write: the [try] and the [catch] block of [setup], the
    storing of fetched episodes in [openShow], the head of [openShow], its
    switch to [loading], and the four listeners that change a field. *)
Inductive stateWrite `{Host} : State → State → Prop :=
  | write_shows s data :
      stateWrite s
        (set_currentView showsView
           (set_status loaded (set_shows (Js.sort compareShows data) s)))
  | write_error s :
      stateWrite s
        (set_errorMessage "Unable to load shows. Please try again."
           (set_status error s))
  | write_episodes s tvShowId episodes :
      stateWrite s
        (set_status loaded
           (set_episodesByShowId
              (<[Js.String_ tvShowId := episodes]> (episodesByShowId s)) s))
  | write_open s tvShowId :
      stateWrite s
        (set_episodeSearchText ""
           (set_selectedEpisodeId ""
              (set_currentView episodesView
                 (set_selectedShowId (Js.String_ tvShowId) s))))
  | write_loading s : stateWrite s (set_status loading s)
  | write_showSearch s value : stateWrite s (set_showSearchText value s)
  | write_episodeSelect s value : stateWrite s (set_selectedEpisodeId value s)
  | write_episodeSearch s value :
      stateWrite s (set_selectedEpisodeId "" (set_episodeSearchText value s))
  | write_back s : stateWrite s (set_currentView showsView s).

(** The message that [setup] sets when the shows cannot be loaded. *)
Definition showsErrorMessage : string :=
  "Unable to load shows. Please try again.".

(** The events whose listeners only change a field of [state] and render:
    the two search boxes, the episode select, the back button, and the
    placeholder of the show select. *)
Definition isLocal (ev : Event) : bool :=
  match ev with
  | ShowSearchInput _ | EpisodeSelectChange _ | EpisodeSearchInput _
  | BackClick | ShowSelectChange None => true
  | _ => false
  end.

(** ** Summaries on the cards *)

(** An index of [slice]: counted from the end when negative, clamped to the
    string. *)
Definition sliceIndex (len i : Z) : Z :=
  if i <? 0 then Z.max (len + i) 0 else Z.min i len.

(** [s.slice(start, end)] *)
Definition slice (start end_ : Z) (s : string) : string :=
  let len := Z.of_nat (String.length s) in
  let from := sliceIndex len start in
  let to := sliceIndex len end_ in
  String.substring (Z.to_nat from) (Z.to_nat (to - from)) s.

(** [truncateSummary(text, maxLength)] *)
Definition truncateSummary `{Host} (text : string) (maxLength : Z) : string :=
  if negb (Js.truthy text) then ""
  else if Z.of_nat (String.length text) <=? maxLength then text
  else trim (slice 0 (maxLength - 1) text) +:+ "…".

(** Does the character [c] occur in [s]? *)
Fixpoint hasChar (c : ascii) (s : string) : bool :=
  match s with
  | EmptyString => false
  | String d s' => if Ascii.eqb c d then true else hasChar c s'
  end.

(** * Properties *)

(** ** Strings *)

Lemma append_nil_l (b : string) : "" +:+ b = b.
Proof. reflexivity. Qed.

Lemma append_cons (c : ascii) (a b : string) :
  String c a +:+ b = String c (a +:+ b).
Proof. reflexivity. Qed.

Lemma append_assoc (a b c : string) : (a +:+ b) +:+ c = a +:+ (b +:+ c).
Proof.
  induction a as [|ch a IH]; [done|]. by rewrite !append_cons, IH.
Qed.

Lemma append_empty_r (a : string) : a +:+ "" = a.
Proof. induction a as [|ch a IH]; [done|]. by rewrite append_cons, IH. Qed.

Lemma length_append (a b : string) :
  String.length (a +:+ b) = (String.length a + String.length b)%nat.
Proof.
  induction a as [|ch a IH]; [done|]. rewrite append_cons. simpl. by rewrite IH.
Qed.

Lemma truthy_true (s : string) : Js.truthy s = true ↔ s ≠ "".
Proof. destruct s; simpl; split; intros; congruence. Qed.

Lemma truthy_false (s : string) : Js.truthy s = false ↔ s = "".
Proof. destruct s; simpl; split; intros; congruence. Qed.

Lemma prefix_spec (sub s : string) :
  String.prefix sub s = true ↔ ∃ after, s = sub +:+ after.
Proof.
  revert s. induction sub as [|c sub IH]; intros [|d s]; simpl.
  - split; [intros _; by exists "" | done].
  - split; [intros _; by exists (String d s) | done].
  - split; [done | intros [after Hafter]; discriminate].
  - destruct (ascii_dec c d) as [->|Hne].
    + rewrite IH. split; intros [after Hafter]; exists after;
        rewrite append_cons in *; congruence.
    + split; [done | intros [after Hafter]].
      rewrite append_cons in Hafter. congruence.
Qed.

(** [includes] decides substring containment. *)
Lemma includes_spec (s sub : string) :
  Js.includes s sub = true ↔ contains s sub.
Proof.
  unfold contains. induction s as [|c s IH]; cbn [Js.includes].
  - rewrite orb_false_r, prefix_spec. split.
    + intros [after Hafter]. by exists "", after.
    + intros ([|b before] & after & Heq); [eauto | discriminate].
  - rewrite orb_true_iff, prefix_spec, IH. split.
    + intros [[after Hafter] | (before & after & Heq)].
      * by exists "", after.
      * exists (String c before), after. by rewrite append_cons, Heq.
    + intros ([|b before] & after & Heq).
      * left. eauto.
      * right. exists before, after. rewrite append_cons in Heq. congruence.
Qed.

Lemma includes_false (s sub : string) :
  Js.includes s sub = false ↔ ¬ contains s sub.
Proof.
  rewrite <- includes_spec. destruct (Js.includes s sub); split; congruence.
Qed.

(** *** Decimal printing *)

Lemma pretty_N_go_length (x : N) (s : string) :
  (String.length s ≤ String.length (pretty_N_go x s))%nat.
Proof.
  revert s. induction (N.lt_wf_0 x) as [x _ IH]; intros s.
  assert (x = 0 ∨ 0 < x)%N as [->|Hpos] by lia.
  - by rewrite pretty_N_go_0.
  - rewrite pretty_N_go_step by done.
    etrans; [| apply IH; by apply N.div_lt]. simpl. lia.
Qed.

Lemma String_nonneg_small (n : Z) :
  0 ≤ n ≤ 9 → String.length (Js.String_ n) = 1%nat.
Proof.
  intros Hn.
  assert (n = 0 ∨ n = 1 ∨ n = 2 ∨ n = 3 ∨ n = 4 ∨ n = 5 ∨ n = 6 ∨ n = 7
          ∨ n = 8 ∨ n = 9) as Hcases by lia.
  repeat (destruct Hcases as [->|Hcases]; [reflexivity|]). by subst.
Qed.

Lemma String_length_pos (n : Z) : (1 ≤ String.length (Js.String_ n))%nat.
Proof.
  unfold Js.String_, pretty, pretty_Z.
  assert (∀ p : positive, (1 ≤ String.length (pretty p))%nat) as Hpos.
  { intros p. unfold pretty, pretty_positive, pretty, pretty_N.
    case_decide; [done|].
    rewrite pretty_N_go_step by lia.
    etrans; [| apply pretty_N_go_length]. simpl. lia. }
  destruct n as [|p|p]; [simpl; lia | apply Hpos |].
  rewrite length_append. simpl. lia.
Qed.

Lemma String_truthy (n : Z) : Js.truthy (Js.String_ n) = true.
Proof.
  pose proof (String_length_pos n) as Hlen.
  destruct (Js.String_ n); simpl in *; [lia | done].
Qed.

Lemma String_inj (m n : Z) : Js.String_ m = Js.String_ n → m = n.
Proof. apply pretty_Z_inj. Qed.

(** *** [padStart] *)

Lemma filler_zeros (n : nat) (cur : string) :
  (cur = "" ∨ cur = "0") → Js.filler n "0" cur = zeros n.
Proof.
  revert cur. induction n as [|n IH]; intros cur Hcur; simpl; [done|].
  destruct Hcur as [->| ->]; simpl; rewrite IH; auto.
Qed.

Lemma length_zeros (k : nat) : String.length (zeros k) = k.
Proof. induction k; simpl; congruence. Qed.

Lemma padStart_zeroPadded (width : nat) (digits : string) :
  zeroPadded width digits (Js.padStart width "0" digits).
Proof.
  unfold zeroPadded, Js.padStart.
  destruct (width <=? String.length digits)%nat eqn:Hle.
  - apply Nat.leb_le in Hle. exists 0%nat. simpl. split; [done | lia].
  - apply Nat.leb_gt in Hle. exists (width - String.length digits)%nat.
    rewrite filler_zeros by auto. split; [done|].
    rewrite length_append, length_zeros. lia.
Qed.

Lemma String_length_ge_10 (n : Z) :
  10 ≤ n → (2 ≤ String.length (Js.String_ n))%nat.
Proof.
  intros Hn. destruct n as [|p|p]; try lia.
  unfold Js.String_, pretty, pretty_Z, pretty, pretty_positive, pretty, pretty_N.
  case_decide; [done|].
  rewrite pretty_N_go_step by lia.
  rewrite pretty_N_go_step by (apply N.div_str_pos_iff; lia).
  etrans; [| apply pretty_N_go_length]. simpl. lia.
Qed.

(** A number below ten gets exactly one zero in front. *)
Lemma padStart_one_digit (n : Z) :
  0 ≤ n ≤ 9 → Js.padStart 2 "0" (Js.String_ n) = "0" +:+ Js.String_ n.
Proof.
  intros Hn. unfold Js.padStart. by rewrite String_nonneg_small.
Qed.

(** A number from ten on is printed as it is. *)
Lemma padStart_two_digits (n : Z) :
  10 ≤ n → Js.padStart 2 "0" (Js.String_ n) = Js.String_ n.
Proof.
  intros Hn. unfold Js.padStart.
  pose proof (String_length_ge_10 n Hn) as Hlen.
  destruct (2 <=? String.length (Js.String_ n))%nat eqn:Hle; [done|].
  apply Nat.leb_gt in Hle. lia.
Qed.

(** ** Episode codes *)

(** C8. For every season and episode number, [formatEpisodeCode] returns
    ["S"], the season, ["-E"] and the number, each printed in decimal and
    zero-padded on the left to at least two characters; [formatEpisodeCode 1 7]
    is ["S01-E07"] and [formatEpisodeCode 12 3] is ["S12-E03"]. *)
Theorem formatEpisodeCode_spec (seasonNumber episodeNumber : Z) :
  (∃ season number,
     formatEpisodeCode seasonNumber episodeNumber
     = "S" +:+ season +:+ "-E" +:+ number
     ∧ zeroPadded 2 (Js.String_ seasonNumber) season
     ∧ zeroPadded 2 (Js.String_ episodeNumber) number)
  ∧ formatEpisodeCode 1 7 = "S01-E07"
  ∧ formatEpisodeCode 12 3 = "S12-E03".
Proof.
  split; [| split; reflexivity].
  exists (Js.padStart 2 "0" (Js.String_ seasonNumber)),
    (Js.padStart 2 "0" (Js.String_ episodeNumber)).
  split; [reflexivity|]. split; apply padStart_zeroPadded.
Qed.

(** ** Filters *)

Lemma filter_none {A} (p : A → bool) (l : list A) :
  (∀ x, In x l → p x = false) → List.filter p l = [].
Proof.
  induction l as [|y l IH]; intros Hall; simpl; [done|].
  rewrite (Hall y) by (by left). apply IH. intros x Hx. apply Hall. by right.
Qed.

Lemma filter_all {A} (p : A → bool) (l : list A) :
  (∀ x, In x l → p x = true) → List.filter p l = l.
Proof.
  induction l as [|y l IH]; intros Hall; simpl; [done|].
  rewrite (Hall y) by (by left). f_equal. apply IH. intros x Hx.
  apply Hall. by right.
Qed.

(** Filtering on a key that no two elements share keeps at most the one
    element that has the key. *)
Lemma filter_unique_key {A} (key : A → Z) (p : A → bool) (l : list A) (e : A) :
  List.NoDup (map key l) → In e l →
  (∀ x, p x = true ↔ key x = key e) →
  List.filter p l = [e].
Proof.
  intros Hnodup Hin Hp. induction l as [|y l IH]; [done|].
  simpl in Hnodup. apply List.NoDup_cons_iff in Hnodup as [Hfresh Hnodup].
  simpl. destruct Hin as [->|Hin].
  - rewrite (proj2 (Hp e) eq_refl). f_equal.
    apply filter_none. intros x Hx.
    destruct (p x) eqn:Hpx; [|done]. apply Hp in Hpx.
    destruct Hfresh. rewrite <- Hpx. by apply List.in_map.
  - destruct (p y) eqn:Hpy.
    + apply Hp in Hpy. destruct Hfresh. rewrite Hpy. by apply List.in_map.
    + by apply IH.
Qed.

Lemma episodeIsSelected_spec (selectedEpisodeId : string) (episode : Episode.t) :
  episodeIsSelected selectedEpisodeId episode = true
  ↔ Js.String_ (Episode.id episode) = selectedEpisodeId.
Proof. unfold episodeIsSelected. apply String.eqb_eq. Qed.

Lemma filter_decides {A} (P : A → Prop) (keep keep' : A → bool) (l : list A) :
  (∀ x, keep x = true ↔ P x) →
  (∀ x, In x l → (keep' x = true ↔ P x)) →
  List.filter keep l = List.filter keep' l.
Proof.
  intros Hkeep Hkeep'. apply List.filter_ext_in. intros x Hx.
  specialize (Hkeep x). specialize (Hkeep' x Hx).
  destruct (keep x), (keep' x); try done.
  - symmetry. apply Hkeep'. by apply Hkeep.
  - apply Hkeep. by apply Hkeep'.
Qed.

(** With a parser that does not throw, [extractText(summary || '')] is the
    plain text of the summary. *)
Lemma extractText_plainText `{Host} (summary : option string) :
  parserTotal → extractText (orEmpty summary) = plainTextOf summary.
Proof.
  intros Hparser. destruct summary as [[|c html]|]; try done.
  unfold extractText, orEmpty, plainTextOf. simpl.
  destruct (Hparser (String c html)) as [text ->]. by destruct text.
Qed.

(** [join] is the concatenation with a separator of the library. *)
Lemma join_concat (sep : string) (parts : list string) :
  Js.join sep parts = String.concat sep parts.
Proof.
  induction parts as [|p [|q parts] IH]; try done;
    cbn [Js.join String.concat]; by rewrite IH.
Qed.

Lemma join_genreText (genres : option (list string)) :
  Js.join " " (default [] genres) = genreTextOf genres.
Proof. destruct genres; [apply join_concat | done]. Qed.

Lemma episodeMatches_spec `{Host} (folded : string) (episode : Episode.t) :
  parserTotal →
  episodeMatches folded episode = true ↔ episodeMatchesSpec folded episode.
Proof.
  intros Hparser. unfold episodeMatches, episodeMatchesSpec.
  by rewrite orb_true_iff, !includes_spec, extractText_plainText.
Qed.

Lemma showMatches_spec `{Host} (folded : string) (show : Show.t) :
  parserTotal → folded ≠ "" →
  showMatches folded show = true ↔ showMatchesSpec folded show.
Proof.
  intros Hparser Hfolded. unfold showMatches, showMatchesSpec.
  apply truthy_true in Hfolded. rewrite Hfolded. simpl.
  rewrite !orb_true_iff, !includes_spec, extractText_plainText by done.
  rewrite join_genreText. tauto.
Qed.

(** C3. With a selection set, the episode filter returns the one episode
    with that id (ids are unique within a show), and nothing when no
    episode has it; with no selection and a non-empty trimmed search text,
    it returns, in order, exactly the episodes whose folded name or folded
    plain-text summary contains the folded (and trimmed) search text, the
    plain text being what the document parser of the host gives;
    otherwise it returns all episodes as they are. *)
Theorem filteredEpisodes_spec `{Host} (episodes : list Episode.t)
    (episodeSearchText selectedEpisodeId : string) :
  let folded := trim (toLowerCase episodeSearchText) in
  let result := filteredEpisodes episodes episodeSearchText selectedEpisodeId in
  (selectedEpisodeId ≠ "" →
     (∀ episode,
        List.NoDup (map Episode.id episodes) →
        In episode episodes →
        Js.String_ (Episode.id episode) = selectedEpisodeId →
        result = [episode])
     ∧ ((∀ episode,
           In episode episodes →
           Js.String_ (Episode.id episode) ≠ selectedEpisodeId) →
        result = []))
  ∧ (selectedEpisodeId = "" → folded ≠ "" → parserTotal →
     ∃ keep,
       (∀ episode, keep episode = true ↔ episodeMatchesSpec folded episode)
       ∧ result = List.filter keep episodes)
  ∧ (selectedEpisodeId = "" → folded = "" → result = episodes).
Proof.
  intros folded result. subst result. unfold filteredEpisodes. fold folded.
  split; [| split].
  - intros Hsel. apply truthy_true in Hsel. rewrite Hsel. split.
    + intros episode Hnodup Hin Hid.
      apply (filter_unique_key Episode.id); [done | done |].
      intros x. rewrite episodeIsSelected_spec, <- Hid.
      split; [apply String_inj | congruence].
    + intros Hnone. apply filter_none. intros x Hx.
      destruct (episodeIsSelected selectedEpisodeId x) eqn:Heq; [|done].
      apply episodeIsSelected_spec in Heq. by destruct (Hnone x Hx).
  - intros -> Hfolded Hparser. simpl. apply truthy_true in Hfolded.
    rewrite Hfolded. exists (episodeMatches folded). split; [|done].
    intros episode. by apply episodeMatches_spec.
  - intros -> Hfolded. simpl. by rewrite Hfolded.
Qed.

(** C9. With a selection set, the result of the episode filter does not
    depend on the search text. *)
Theorem filteredEpisodes_selection_hides_search `{Host}
    (episodes : list Episode.t) (selectedEpisodeId : string)
    (searchText1 searchText2 : string) :
  selectedEpisodeId ≠ "" →
  filteredEpisodes episodes searchText1 selectedEpisodeId
  = filteredEpisodes episodes searchText2 selectedEpisodeId.
Proof.
  intros Hsel. apply truthy_true in Hsel.
  unfold filteredEpisodes. by rewrite Hsel.
Qed.

(** C4. With an empty trimmed, folded search text the show filter returns
    the shows as they are; otherwise it returns, in order, exactly the shows
    whose folded name, folded plain-text summary or folded space-joined
    genre list contains the folded (and trimmed) search text, the plain
    text being what the document parser of the host gives; hence nothing
    when no show matches. *)
Theorem filteredShows_spec `{Host} (shows : list Show.t)
    (showSearchText : string) :
  let folded := trim (toLowerCase showSearchText) in
  let result := filteredShows shows showSearchText in
  (folded = "" → result = shows ∧ List.length result = List.length shows)
  ∧ (folded ≠ "" → parserTotal →
     ∃ keep,
       (∀ show, keep show = true ↔ showMatchesSpec folded show)
       ∧ result = List.filter keep shows)
  ∧ (folded ≠ "" → parserTotal →
     (∀ show, In show shows → ¬ showMatchesSpec folded show) →
     result = []).
Proof.
  intros folded result. subst result. unfold filteredShows. fold folded.
  split; [| split].
  - intros Hfolded. rewrite Hfolded.
    rewrite filter_all; [done|]. intros x _. reflexivity.
  - intros Hfolded Hparser. exists (showMatches folded). split; [|done].
    intros show. by apply showMatches_spec.
  - intros Hfolded Hparser Hnone. apply filter_none. intros x Hx.
    destruct (showMatches folded x) eqn:Heq; [|done].
    apply showMatches_spec in Heq; [|done..]. by destruct (Hnone x Hx).
Qed.

(** ** Sorting *)

Section SortFacts.
Context {A : Type} (cmp : A → A → comparison).
Hypothesis cmp_antisym : ∀ a b, cmp b a = CompOpp (cmp a b).
Hypothesis cmp_trans : ∀ a b c, cmp a b ≠ Gt → cmp b c ≠ Gt → cmp a c ≠ Gt.

Let le (a b : A) : Prop := cmp a b ≠ Gt.

Lemma insertSorted_perm (x : A) (l : list A) :
  Js.insertSorted cmp x l ≡ₚ x :: l.
Proof.
  induction l as [|y l IH]; simpl; [done|].
  destruct (cmp x y); try done.
  rewrite IH. apply Permutation_swap.
Qed.

Lemma sort_perm (l : list A) : Js.sort cmp l ≡ₚ l.
Proof.
  induction l as [|x l IH]; simpl; [done|].
  by rewrite insertSorted_perm, IH.
Qed.

Lemma insertSorted_sorted (x : A) (l : list A) :
  StronglySorted le l → StronglySorted le (Js.insertSorted cmp x l).
Proof.
  induction 1 as [|y l Hsorted IH Hall]; simpl.
  - repeat constructor.
  - destruct (cmp x y) eqn:Hxy.
    + constructor; [by constructor|].
      constructor; [unfold le; congruence|].
      eapply Forall_impl; [exact Hall|]. intros z Hyz.
      apply (cmp_trans x y z); [congruence | exact Hyz].
    + constructor; [by constructor|].
      constructor; [unfold le; congruence|].
      eapply Forall_impl; [exact Hall|]. intros z Hyz.
      apply (cmp_trans x y z); [congruence | exact Hyz].
    + constructor; [exact IH|].
      rewrite insertSorted_perm. constructor; [|exact Hall].
      unfold le. rewrite cmp_antisym, Hxy. simpl. congruence.
Qed.

Lemma sort_sorted (l : list A) : StronglySorted le (Js.sort cmp l).
Proof.
  induction l as [|x l IH]; simpl; [constructor|].
  by apply insertSorted_sorted.
Qed.

(** Elements that never compare above each other keep their order. *)
Lemma insertSorted_filter (p : A → bool) (x : A) (l : list A) :
  (∀ a b, p a = true → p b = true → cmp a b ≠ Gt) →
  List.filter p (Js.insertSorted cmp x l) = List.filter p (x :: l).
Proof.
  intros Hp. induction l as [|y l IH]; [done|].
  cbn [Js.insertSorted]. destruct (cmp x y) eqn:Hxy; [done | done |].
  cbn [List.filter] in *. rewrite IH.
  destruct (p x) eqn:Hpx, (p y) eqn:Hpy; try done.
  by destruct (Hp x y).
Qed.

Lemma sort_filter (p : A → bool) (l : list A) :
  (∀ a b, p a = true → p b = true → cmp a b ≠ Gt) →
  List.filter p (Js.sort cmp l) = List.filter p l.
Proof.
  intros Hp. induction l as [|x l IH]; [done|].
  cbn [Js.sort]. rewrite insertSorted_filter by done.
  cbn [List.filter]. by rewrite IH.
Qed.

End SortFacts.

Section CompareShows.
Context `{HL : HostLaws}.

Lemma compareShows_antisym (a b : Show.t) :
  compareShows b a = CompOpp (compareShows a b).
Proof. apply localeCompare_antisym. Qed.

Lemma compareShows_trans (a b c : Show.t) :
  compareShows a b ≠ Gt → compareShows b c ≠ Gt → compareShows a c ≠ Gt.
Proof. apply localeCompare_trans. Qed.

Lemma tie_not_above (show a b : Show.t) :
  tie show a = true → tie show b = true → compareShows a b ≠ Gt.
Proof.
  unfold tie. intros Ha Hb.
  destruct (compareShows show a) eqn:Hsa; try done.
  destruct (compareShows show b) eqn:Hsb; try done.
  apply (compareShows_trans a show b); [|congruence].
  rewrite compareShows_antisym, Hsa. simpl. congruence.
Qed.

End CompareShows.

(** *** The ASCII host is lawful *)

Lemma N_of_ascii_inj (x y : ascii) : N_of_ascii x = N_of_ascii y → x = y.
Proof.
  intros Heq. rewrite <- (ascii_N_embedding x), <- (ascii_N_embedding y).
  by rewrite Heq.
Qed.

Lemma string_compare_trans (a b c : string) :
  String.compare a b ≠ Gt → String.compare b c ≠ Gt → String.compare a c ≠ Gt.
Proof.
  revert b c. induction a as [|x a IH]; intros [|y b] [|z c]; simpl; try done.
  unfold Ascii.compare.
  destruct (N.compare_spec (N_of_ascii x) (N_of_ascii y)) as [Hxy|Hxy|Hxy];
    [| |done].
  - apply N_of_ascii_inj in Hxy as ->.
    destruct (N.compare (N_of_ascii y) (N_of_ascii z)); [apply IH | done | done].
  - intros _.
    destruct (N.compare_spec (N_of_ascii y) (N_of_ascii z)) as [Hyz|Hyz|Hyz];
      [| |done]; intros _.
    + rewrite <- Hyz. by rewrite (proj2 (N.compare_lt_iff _ _) Hxy).
    + assert (N_of_ascii x < N_of_ascii z)%N as Hxz by lia.
      by rewrite (proj2 (N.compare_lt_iff _ _) Hxz).
Qed.

Instance AsciiHostLaws : HostLaws AsciiHost.
Proof.
  split; simpl; unfold Ascii_.localeCompare.
  - intros a b. apply String.compare_antisym.
  - intros a b c. apply string_compare_trans.
Qed.

(** C7. The shows that [setup] stores are the fetched shows sorted by name
    with the case-insensitive comparison of the host: the same shows, none
    sorting after a later one, and those that tie in the order they were
    fetched; on ASCII names, shows named Zeta, alpha, Beta are stored as
    alpha, Beta, Zeta. *)
Theorem fetchTVShows_sorts_by_name `{HL : HostLaws} (data : list Show.t) :
  let w := run [Load; Response showsUrl (httpOk (JShows data))] initialWorld in
  let stored := shows (state w) in
  stored ≡ₚ data
  ∧ StronglySorted notAfter stored
  ∧ (∀ show, List.filter (tie show) stored = List.filter (tie show) data)
  ∧ (∀ zeta alpha beta,
       Show.name zeta = "Zeta" → Show.name alpha = "alpha" →
       Show.name beta = "Beta" →
       shows (state (run (H := AsciiHost)
                       [Load;
                        Response showsUrl (httpOk (JShows [zeta; alpha; beta]))]
                       initialWorld))
       = [alpha; beta; zeta]).
Proof.
  intros w stored.
  assert (stored = Js.sort compareShows data) as -> by reflexivity.
  split; [| split; [| split]].
  - apply sort_perm.
  - apply sort_sorted.
    + apply compareShows_antisym.
    + apply compareShows_trans.
  - intros show. apply sort_filter. apply tie_not_above.
  - intros zeta alpha beta Hzeta Halpha Hbeta.
    change (Js.sort (compareShows (H := AsciiHost)) [zeta; alpha; beta]
            = [alpha; beta; zeta]).
    destruct zeta, alpha, beta. simpl in Hzeta, Halpha, Hbeta. subst.
    reflexivity.
Qed.

(** ** Concrete runs of the pure functions *)

Lemma sampleEpisodes_ids_unique : List.NoDup (map Episode.id sampleEpisodes).
Proof. apply NoDup_ListNoDup. by apply (bool_decide_unpack _). Qed.

Lemma AsciiHost_parserTotal : parserTotal (H := AsciiHost).
Proof. intros html. by eexists. Qed.

(** Deciding the match of a sample against a folded text, by running
    [includes] on the two texts. *)
Ltac sample_matches :=
  match goal with
  | |- _ ↔ _ => split; [intros _ | reflexivity || discriminate]
  | _ => idtac
  end.

Lemma contains_by_includes (s sub : string) :
  Js.includes s sub = true → contains s sub.
Proof. apply includes_spec. Qed.

Lemma not_contains_by_includes (s sub : string) :
  Js.includes s sub = false → ¬ contains s sub.
Proof. apply includes_false. Qed.

(** Which sample episodes match ["storm"] and ["<i>"]: the second one has
    the word in the text of its summary; none has the tag in its text. *)
Lemma sampleEpisodes_storm (episode : Episode.t) :
  In episode sampleEpisodes →
  Z.eqb (Episode.id episode) 102 = true
  ↔ episodeMatchesSpec (H := AsciiHost) "storm" episode.
Proof.
  intros [<-|[<-|[<-|[]]]]; (split; [try discriminate | try reflexivity]).
  - intros [Hc|Hc]; by apply includes_spec in Hc.
  - intros _. right. by apply contains_by_includes.
  - intros [Hc|Hc]; by apply includes_spec in Hc.
Qed.

Lemma sampleEpisodes_tag (episode : Episode.t) :
  In episode sampleEpisodes →
  false = true ↔ episodeMatchesSpec (H := AsciiHost) "<i>" episode.
Proof.
  intros [<-|[<-|[<-|[]]]]; (split; [discriminate|]);
    intros [Hc|Hc]; by apply includes_spec in Hc.
Qed.

Lemma filteredEpisodes_spec_witness :
  filteredEpisodes (H := AsciiHost) sampleEpisodes "pilot" "102"
  = [episodeFallout]
  ∧ filteredEpisodes (H := AsciiHost) sampleEpisodes "pilot" "999" = []
  ∧ filteredEpisodes (H := AsciiHost) sampleEpisodes " Storm " ""
    = [episodeFallout]
  ∧ filteredEpisodes (H := AsciiHost) sampleEpisodes "<i>" "" = []
  ∧ filteredEpisodes (H := AsciiHost) sampleEpisodes "  " "" = sampleEpisodes.
Proof.
  split; [| split; [| split; [| split]]].
  - apply (filteredEpisodes_spec (H := AsciiHost) sampleEpisodes "pilot" "102");
      [done | apply sampleEpisodes_ids_unique | simpl; auto | reflexivity].
  - apply (filteredEpisodes_spec (H := AsciiHost) sampleEpisodes "pilot" "999");
      [done |].
    intros episode [<-|[<-|[<-|[]]]]; by vm_compute.
  - destruct (filteredEpisodes_spec (H := AsciiHost) sampleEpisodes " Storm " "")
      as (_ & Hsearch & _).
    destruct Hsearch as (keep & Hkeep & ->);
      [reflexivity | by vm_compute | apply AsciiHost_parserTotal |].
    by rewrite (filter_decides _ keep
                  (λ episode, Z.eqb (Episode.id episode) 102) _
                  Hkeep sampleEpisodes_storm).
  - destruct (filteredEpisodes_spec (H := AsciiHost) sampleEpisodes "<i>" "")
      as (_ & Hsearch & _).
    destruct Hsearch as (keep & Hkeep & ->);
      [reflexivity | by vm_compute | apply AsciiHost_parserTotal |].
    by rewrite (filter_decides _ keep (λ _, false) _ Hkeep sampleEpisodes_tag).
  - apply (filteredEpisodes_spec (H := AsciiHost) sampleEpisodes "  " "");
      reflexivity.
Defined.

Lemma filteredEpisodes_selection_hides_search_witness :
  "102" ≠ ""
  ∧ filteredEpisodes (H := AsciiHost) sampleEpisodes "pilot" "102"
    = filteredEpisodes (H := AsciiHost) sampleEpisodes "" "102".
Proof.
  split; [done|].
  by apply (filteredEpisodes_selection_hides_search (H := AsciiHost)).
Defined.

(** Which sample shows match ["opera"] (the text of the summary of the
    first), ["drama science"] (two of its genres, joined), ["et"] (the
    names of the first and the third) and ["<b>"] (a tag: none). *)
Lemma sampleShows_opera (show : Show.t) :
  In show sampleShows →
  Z.eqb (Show.id show) 10 = true
  ↔ showMatchesSpec (H := AsciiHost) "opera" show.
Proof.
  intros [<-|[<-|[<-|[]]]]; (split; [try discriminate | try reflexivity]).
  - intros _. right. left. by apply contains_by_includes.
  - intros [Hc|[Hc|Hc]]; by apply includes_spec in Hc.
  - intros [Hc|[Hc|Hc]]; by apply includes_spec in Hc.
Qed.

Lemma sampleShows_genres (show : Show.t) :
  In show sampleShows →
  Z.eqb (Show.id show) 10 = true
  ↔ showMatchesSpec (H := AsciiHost) "drama science" show.
Proof.
  intros [<-|[<-|[<-|[]]]]; (split; [try discriminate | try reflexivity]).
  - intros _. right. right. by apply contains_by_includes.
  - intros [Hc|[Hc|Hc]]; by apply includes_spec in Hc.
  - intros [Hc|[Hc|Hc]]; by apply includes_spec in Hc.
Qed.

Lemma sampleShows_names (show : Show.t) :
  In show sampleShows →
  negb (Z.eqb (Show.id show) 20) = true
  ↔ showMatchesSpec (H := AsciiHost) "et" show.
Proof.
  intros [<-|[<-|[<-|[]]]]; (split; [try discriminate | try reflexivity]).
  - intros _. left. by apply contains_by_includes.
  - intros [Hc|[Hc|Hc]]; by apply includes_spec in Hc.
  - intros _. left. by apply contains_by_includes.
Qed.

Lemma sampleShows_tag (show : Show.t) :
  In show sampleShows →
  ¬ showMatchesSpec (H := AsciiHost) "<b>" show.
Proof.
  intros [<-|[<-|[<-|[]]]] [Hc|[Hc|Hc]]; by apply includes_spec in Hc.
Qed.

Lemma filteredShows_spec_witness :
  (filteredShows (H := AsciiHost) sampleShows "" = sampleShows
   ∧ List.length (filteredShows (H := AsciiHost) sampleShows "")
     = List.length sampleShows)
  ∧ filteredShows (H := AsciiHost) sampleShows " OPERA" = [showZeta]
  ∧ filteredShows (H := AsciiHost) sampleShows "Drama Science" = [showZeta]
  ∧ filteredShows (H := AsciiHost) sampleShows "ET" = [showZeta; showBeta]
  ∧ filteredShows (H := AsciiHost) sampleShows "<b>" = []
  ∧ filteredShows (H := AsciiHost) sampleShows "zzzz-no-match" = [].
Proof.
  split; [| split; [| split; [| split; [| split]]]].
  - apply (filteredShows_spec (H := AsciiHost) sampleShows ""). reflexivity.
  - destruct (filteredShows_spec (H := AsciiHost) sampleShows " OPERA")
      as (_ & Hsearch & _).
    destruct Hsearch as (keep & Hkeep & ->);
      [by vm_compute | apply AsciiHost_parserTotal |].
    by rewrite (filter_decides _ keep (λ show, Z.eqb (Show.id show) 10) _
                  Hkeep sampleShows_opera).
  - destruct (filteredShows_spec (H := AsciiHost) sampleShows "Drama Science")
      as (_ & Hsearch & _).
    destruct Hsearch as (keep & Hkeep & ->);
      [by vm_compute | apply AsciiHost_parserTotal |].
    by rewrite (filter_decides _ keep (λ show, Z.eqb (Show.id show) 10) _
                  Hkeep sampleShows_genres).
  - destruct (filteredShows_spec (H := AsciiHost) sampleShows "ET")
      as (_ & Hsearch & _).
    destruct Hsearch as (keep & Hkeep & ->);
      [by vm_compute | apply AsciiHost_parserTotal |].
    by rewrite (filter_decides _ keep
                  (λ show, negb (Z.eqb (Show.id show) 20)) _
                  Hkeep sampleShows_names).
  - apply (filteredShows_spec (H := AsciiHost) sampleShows "<b>");
      [by vm_compute | apply AsciiHost_parserTotal | apply sampleShows_tag].
  - apply (filteredShows_spec (H := AsciiHost) sampleShows "zzzz-no-match");
      [by vm_compute | apply AsciiHost_parserTotal |].
    intros show [<-|[<-|[<-|[]]]] [Hc|[Hc|Hc]]; by apply includes_spec in Hc.
Defined.

Lemma fetchTVShows_sorts_by_name_witness :
  shows (state (run (H := AsciiHost)
                  [Load; Response showsUrl (httpOk (JShows sampleShows))]
                  initialWorld))
  = [showAlpha; showBeta; showZeta].
Proof.
  apply (fetchTVShows_sorts_by_name (H := AsciiHost) (HL := AsciiHostLaws)
           sampleShows); reflexivity.
Defined.

(** ** Requests *)

(** *** What the functions leave alone *)

Lemma sameNet_refl (w : World) : sameNet w w.
Proof. by repeat split. Qed.

Lemma sameNet_trans (w1 w2 w3 : World) :
  sameNet w1 w2 → sameNet w2 w3 → sameNet w1 w3.
Proof.
  intros (? & ? & ? & ?) (? & ? & ? & ?). repeat split; congruence.
Qed.

Lemma upd_state_sameNet (f : State → State) (w : World) :
  sameNet w (upd_state f w).
Proof. by repeat split. Qed.

Lemma upd_dom_sameNet (f : Dom → Dom) (w : World) : sameNet w (upd_dom f w).
Proof. by repeat split. Qed.

Lemma renderStatus_frame (w : World) :
  sameNet w (renderStatus w) ∧ state (renderStatus w) = state w.
Proof. unfold renderStatus. by repeat case_match. Qed.

Lemma render_frame `{Host} (w : World) :
  sameNet w (render w) ∧ state (render w) = state w.
Proof.
  unfold render, renderStatus, renderShowsView, renderEpisodesView,
    makePageForEpisodes, populateEpisodeSelectControl.
  by repeat case_match.
Qed.

Lemma openShowFinish_frame `{Host} (tvShowId : Z) (w : World) :
  sameNet w (openShowFinish tvShowId w)
  ∧ state (openShowFinish tvShowId w) = state w.
Proof.
  unfold openShowFinish.
  match goal with |- context [render ?x] =>
    destruct (render_frame x) as [Hnet Hstate] end.
  split; [|by rewrite Hstate].
  eapply sameNet_trans; [|exact Hnet]. by repeat split.
Qed.

(** [resume] makes no request and suspends nothing; the only entry of
    [fetchCache] it writes is the one whose array [setup] sorts in place. *)
Lemma resume_net `{Host} (url : string) (k : Cont) (p : Promise) (w : World) :
  fetchCalls (resume url k p w) = fetchCalls w
  ∧ suspended (resume url k p w) = suspended w
  ∧ listening (resume url k p w) = listening w
  ∧ (fetchCache (resume url k p w) = fetchCache w
     ∨ ∃ data data',
         p = fulfilled (JShows data)
         ∧ fetchCache (resume url k p w)
           = <[url := fulfilled (JShows data')]> (fetchCache w)).
Proof.
  assert (∀ w', sameNet w w' →
            fetchCalls w' = fetchCalls w ∧ suspended w' = suspended w
            ∧ listening w' = listening w
            ∧ (fetchCache w' = fetchCache w
               ∨ ∃ data data',
                   p = fulfilled (JShows data)
                   ∧ fetchCache w'
                     = <[url := fulfilled (JShows data')]> (fetchCache w)))
    as Hsame.
  { intros w' (? & ? & ? & ?). auto. }
  destruct k as [|tvShowId]; simpl.
  - destruct p as [|[data|data]|];
      try (apply Hsame;
           match goal with |- context [renderStatus ?x] =>
             eapply sameNet_trans; [|apply (renderStatus_frame x)] end;
           by repeat split).
    match goal with |- context [render ?x] =>
      destruct (render_frame x) as [(Hc & Hf & Hs & Hl) _] end.
    rewrite Hc, Hf, Hs, Hl. simpl. repeat split; try done. right. eauto.
  - destruct p as [|[data|data]|]; try (apply Hsame; apply sameNet_refl).
    apply Hsame.
    match goal with |- context [openShowFinish ?i ?x] =>
      eapply sameNet_trans; [|apply (openShowFinish_frame i x)] end.
    by repeat split.
Qed.

(** *** Promises only settle *)

Lemma settledLike_refl (p : Promise) : settledLike p p.
Proof. destruct p; simpl; eauto. Qed.

Lemma settledLike_trans (p1 p2 p3 : Promise) :
  settledLike p1 p2 → settledLike p2 p3 → settledLike p1 p3.
Proof.
  destruct p1; simpl; [done | |].
  - intros [v ->]. done.
  - intros ->. done.
Qed.

Lemma settledLike_settled (p p' : Promise) :
  settledLike p p' → p ≠ pending → p' ≠ pending.
Proof. destruct p; simpl; [done | intros [v ->] | intros ->]; done. Qed.

Lemma cacheGrows_refl (m : gmap string Promise) : cacheGrows m m.
Proof. intros url p Hp. exists p. split; [done | apply settledLike_refl]. Qed.

Lemma cacheGrows_trans (m1 m2 m3 : gmap string Promise) :
  cacheGrows m1 m2 → cacheGrows m2 m3 → cacheGrows m1 m3.
Proof.
  intros H12 H23 url p Hp.
  destruct (H12 url p Hp) as (p2 & Hp2 & Hlike2).
  destruct (H23 url p2 Hp2) as (p3 & Hp3 & Hlike3).
  exists p3. split; [done | by eapply settledLike_trans].
Qed.

Lemma cacheGrows_insert_fresh (m : gmap string Promise) (url : string)
    (p : Promise) :
  m !! url = None → cacheGrows m (<[url := p]> m).
Proof.
  intros Hfresh u q Hq. exists q. split; [|apply settledLike_refl].
  rewrite lookup_insert_ne; [done | congruence].
Qed.

Lemma cacheGrows_insert_settle (m : gmap string Promise) (url : string)
    (p p' : Promise) :
  m !! url = Some p → settledLike p p' → cacheGrows m (<[url := p']> m).
Proof.
  intros Hp Hlike u q Hq. destruct (decide (url = u)) as [<-|Hne].
  - exists p'. rewrite lookup_insert_eq. split; [done | congruence].
  - exists q. rewrite lookup_insert_ne by done.
    split; [done | apply settledLike_refl].
Qed.

Lemma cacheGrows_None (m m' : gmap string Promise) (url : string) :
  cacheGrows m m' → m' !! url = None → m !! url = None.
Proof.
  intros Hgrows Hnone. destruct (m !! url) as [p|] eqn:Hp; [|done].
  destruct (Hgrows url p Hp) as (p' & Hp' & _). congruence.
Qed.

(** *** Every function of the script keeps the requests consistent *)

Lemma netStep_refl (w : World) : netStep w w.
Proof.
  split; [apply cacheGrows_refl|]. split; [|done]. by exists [].
Qed.

Lemma netStep_trans (w1 w2 w3 : World) :
  netStep w1 w2 → netStep w2 w3 → netStep w1 w3.
Proof.
  intros (Hg12 & (new1 & Hc1 & Hn1) & Hi12) (Hg23 & (new2 & Hc2 & Hn2) & Hi23).
  split; [by eapply cacheGrows_trans|]. split; [|auto].
  exists (new2 ++ new1)%list. split.
  - by rewrite Hc2, Hc1, app_assoc.
  - intros url [Hin|Hin]%in_app_or; [|auto].
    eapply cacheGrows_None; [exact Hg12 | auto].
Qed.

Lemma sameNet_netStep (w w' : World) : sameNet w w' → netStep w w'.
Proof.
  intros (Hc & Hf & Hs & _). unfold netStep, netInvariant.
  rewrite Hc, Hf, Hs. split; [apply cacheGrows_refl|].
  split; [|done]. by exists [].
Qed.

Lemma getJson_netStep (url : string) (w : World) : netStep w (getJson url w).
Proof.
  unfold getJson. destruct (fetchCache w !! url) as [p|] eqn:Hp;
    [apply netStep_refl|].
  split; [by apply cacheGrows_insert_fresh|]. split.
  - exists [url]. split; [done|]. by intros u [<-|[]].
  - intros (Hnodup & Hcalls & Hsusp). split; [|split]; simpl.
    + constructor; [|done]. intros Hin. apply Hcalls in Hin as [q Hq].
      congruence.
    + intros u [<-|Hin].
      * rewrite lookup_insert_eq. eauto.
      * destruct (decide (url = u)) as [<-|Hne].
        -- rewrite lookup_insert_eq. eauto.
        -- rewrite lookup_insert_ne by done. auto.
    + intros u k Hin. specialize (Hsusp u k Hin).
      rewrite lookup_insert_ne; [done | congruence].
Qed.

Lemma resume_netStep `{Host} (url : string) (k : Cont) (p : Promise)
    (w : World) :
  fetchCache w !! url = Some p → p ≠ pending → netStep w (resume url k p w).
Proof.
  intros Hp Hsettled.
  destruct (resume_net url k p w) as (Hf & Hs & _ & Hc).
  assert (cacheGrows (fetchCache w) (fetchCache (resume url k p w))) as Hgrows.
  { destruct Hc as [-> | (data & data' & -> & ->)]; [apply cacheGrows_refl|].
    eapply cacheGrows_insert_settle; [exact Hp | simpl; eauto]. }
  split; [done|]. split; [exists []; by rewrite Hf|].
  intros (Hnodup & Hcalls & Hsusp). unfold netInvariant.
  rewrite Hf, Hs. split; [done|]. split.
  - intros u Hin. destruct (Hcalls u Hin) as [q Hq].
    destruct (Hgrows u q Hq) as (q' & Hq' & _). eauto.
  - intros u k' Hin. specialize (Hsusp u k' Hin).
    destruct Hc as [-> | (data & data' & -> & ->)]; [done|].
    rewrite lookup_insert_ne; [done | congruence].
Qed.

Lemma await_netStep `{Host} (url : string) (k : Cont) (w : World) :
  netStep w (await url k w).
Proof.
  unfold await. destruct (fetchCache w !! url) as [p|] eqn:Hp;
    [|apply netStep_refl].
  destruct p as [|value|]; [| by apply resume_netStep..].
  split; [apply cacheGrows_refl|]. split; [by exists []|].
  intros (Hnodup & Hcalls & Hsusp). split; [done|]. split; [done|].
  simpl. intros u k' [Hin|[[= <- <-]|[]]]%in_app_or; eauto.
Qed.

Lemma resumeAt_netStep `{Host} (url : string) (w : World) (k : Cont) :
  (∀ p, fetchCache w !! url = Some p → p ≠ pending) →
  netStep w (resumeAt url w k).
Proof.
  intros Hsettled. unfold resumeAt.
  destruct (fetchCache w !! url) as [p|] eqn:Hp; [|apply netStep_refl].
  apply resume_netStep; auto.
Qed.

Lemma resumeAll_netStep `{Host} (url : string) (ks : list Cont) (w : World) :
  (∀ p, fetchCache w !! url = Some p → p ≠ pending) →
  netStep w (foldl (resumeAt url) w ks).
Proof.
  revert w. induction ks as [|k ks IH]; intros w Hsettled; simpl;
    [apply netStep_refl|].
  pose proof (resumeAt_netStep url w k Hsettled) as Hstep.
  eapply netStep_trans; [exact Hstep|]. apply IH.
  intros p' Hp'. destruct Hstep as (Hgrows & _).
  destruct (fetchCache w !! url) as [p|] eqn:Hp.
  - destruct (Hgrows url p Hp) as (q & Hq & Hlike).
    assert (q = p') as -> by congruence.
    eapply settledLike_settled; [exact Hlike | auto].
  - unfold resumeAt in Hp'. rewrite Hp in Hp'. congruence.
Qed.

Lemma settle_netStep `{Host} (url : string) (outcome : Outcome) (w : World) :
  netStep w (settle url outcome w).
Proof.
  unfold settle.
  destruct (fetchCache w !! url) as [[|value|]|] eqn:Hp;
    try apply netStep_refl.
  destruct (answers url outcome); [|apply netStep_refl].
  set (p := match outcome with
            | httpOk body => fulfilled body
            | httpFailed => rejected
            end).
  assert (p ≠ pending) as Hsettled by (subst p; by destruct outcome).
  match goal with |- netStep _ (foldl _ ?x _) => set (w1 := x) end.
  apply (netStep_trans w w1).
  - split; [by eapply cacheGrows_insert_settle|]. split; [by exists []|].
    intros (Hnodup & Hcalls & Hsusp). split; [done|]. split; simpl.
    + intros u Hin. destruct (decide (url = u)) as [<-|Hne].
      * rewrite lookup_insert_eq. eauto.
      * rewrite lookup_insert_ne by done. auto.
    + intros u k [Hin Hother]%filter_In.
      unfold waitsFor in Hother. simpl in Hother.
      apply negb_true_iff, String.eqb_neq in Hother.
      rewrite lookup_insert_ne by congruence. eauto.
  - apply resumeAll_netStep. subst w1. simpl.
    rewrite lookup_insert_eq. congruence.
Qed.

Lemma openShow_netStep `{Host} (tvShowId : Z) (w : World) :
  netStep w (openShow tvShowId w).
Proof.
  unfold openShow.
  match goal with |- context [episodesByShowId (state ?x) !! _] =>
    set (w0 := x) end.
  assert (netStep w w0) as Hw0 by (apply sameNet_netStep; by repeat split).
  apply (netStep_trans w w0); [done|].
  destruct (episodesByShowId (state w0) !! Js.String_ tvShowId).
  - apply sameNet_netStep. apply openShowFinish_frame.
  - eapply netStep_trans; [|apply await_netStep].
    eapply netStep_trans; [|apply getJson_netStep].
    apply sameNet_netStep.
    eapply sameNet_trans; [|apply renderStatus_frame]. by repeat split.
Qed.

Lemma setup_netStep `{Host} (w : World) : netStep w (setup w).
Proof.
  unfold setup.
  eapply netStep_trans; [|apply await_netStep].
  eapply netStep_trans; [|apply getJson_netStep].
  unfold netStep, netInvariant. simpl.
  split; [apply cacheGrows_refl|]. split; [by exists []|done].
Qed.

Lemma userInput_frame (ev : Event) (w : World) :
  sameNet w (userInput ev w) ∧ state (userInput ev w) = state w.
Proof. by destruct ev. Qed.

Lemma step_netStep `{Host} (w : World) (ev : Event) : netStep w (step w ev).
Proof.
  unfold step. cbv zeta.
  apply (netStep_trans w (userInput ev w));
    [apply sameNet_netStep, userInput_frame|].
  generalize (userInput ev w). clear w. intros w.
  destruct ev; simpl; destruct (listening w); try apply netStep_refl.
  - apply setup_netStep.
  - apply sameNet_netStep.
    eapply sameNet_trans; [|apply render_frame]. by repeat split.
  - destruct value; [apply openShow_netStep | apply netStep_refl].
  - apply openShow_netStep.
  - apply sameNet_netStep.
    eapply sameNet_trans; [|apply render_frame]. by repeat split.
  - apply sameNet_netStep.
    eapply sameNet_trans; [|apply render_frame]. by repeat split.
  - apply sameNet_netStep.
    eapply sameNet_trans; [|apply render_frame]. by repeat split.
  - apply settle_netStep.
  - apply settle_netStep.
Qed.

Lemma run_netStep `{Host} (events : list Event) (w : World) :
  netStep w (run events w).
Proof.
  revert w. induction events as [|ev events IH]; intros w;
    [apply netStep_refl|].
  apply (netStep_trans w (step w ev)); [apply step_netStep | apply IH].
Qed.

Lemma run_app `{Host} (events later : list Event) (w : World) :
  run (events ++ later) w = run later (run events w).
Proof. unfold run. apply foldl_app. Qed.

Lemma initialWorld_netInvariant : netInvariant initialWorld.
Proof. split; [constructor|]. split; [intros url []| intros url k []]. Qed.

Lemma reachable_netInvariant `{Host} (events : list Event) :
  netInvariant (run events initialWorld).
Proof. apply run_netStep, initialWorld_netInvariant. Qed.

(** *** Counting calls to [fetch] *)

Lemma count_NoDup (url : string) (l : list string) :
  List.NoDup l → (List.length (List.filter (String.eqb url) l) ≤ 1)%nat.
Proof.
  induction 1 as [|y l Hfresh Hnodup IH]; simpl; [lia|].
  destruct (String.eqb url y) eqn:Heq; [|done].
  apply String.eqb_eq in Heq as <-.
  rewrite filter_none; [simpl; lia|].
  intros x Hx. apply String.eqb_neq. intros <-. done.
Qed.

Lemma count_app_fresh (url : string) (new l : list string) :
  ¬ In url new →
  List.length (List.filter (String.eqb url) (new ++ l))
  = List.length (List.filter (String.eqb url) l).
Proof.
  intros Hfresh. rewrite List.filter_app, length_app.
  rewrite filter_none; [done|].
  intros x Hx. apply String.eqb_neq. intros <-. done.
Qed.

(** Once the promise of [url] is in [fetchCache], no event makes another
    call to [fetch] for [url], and the promise stays. *)
Lemma cached_never_refetched `{Host} (url : string) (p : Promise)
    (events : list Event) (w : World) :
  fetchCache w !! url = Some p →
  fetchCount url (run events w) = fetchCount url w
  ∧ ∃ p', fetchCache (run events w) !! url = Some p' ∧ settledLike p p'.
Proof.
  intros Hp. destruct (run_netStep events w) as (Hgrows & (new & Hc & Hn) & _).
  split; [|by apply Hgrows].
  unfold fetchCount. rewrite Hc. apply count_app_fresh.
  intros Hin. apply Hn in Hin. congruence.
Qed.

(** *** The episode cache *)

(** [resume] writes [episodesByShowId] only when [openShow] receives its
    episodes, and never touches the shows. *)
Lemma resume_episodes `{Host} (url : string) (k : Cont) (p : Promise)
    (w : World) :
  episodesByShowId (state (resume url k p w))
  = match k, p with
    | openShowCont tvShowId, fulfilled (JEpisodes episodes) =>
        <[Js.String_ tvShowId := episodes]> (episodesByShowId (state w))
    | _, _ => episodesByShowId (state w)
    end.
Proof.
  destruct k as [|tvShowId], p as [|[data|data]|]; simpl;
    repeat match goal with
      | |- context [renderStatus ?x] =>
          rewrite (proj2 (renderStatus_frame x))
      | |- context [render ?x] => rewrite (proj2 (render_frame x))
      | |- context [openShowFinish ?i ?x] =>
          rewrite (proj2 (openShowFinish_frame i x))
      end; reflexivity.
Qed.

Lemma resume_store `{Host} (url : string) (k : Cont) (p : Promise) (w : World) :
  fetchCache w !! url = Some p → p ≠ pending → ownUrl (url, k) →
  storeInvariant w → storeInvariant (resume url k p w).
Proof.
  intros Hp Hsettled Hown [Hsusp Heps].
  destruct (resume_netStep url k p w Hp Hsettled) as (Hgrows & _ & _).
  destruct (resume_net url k p w) as (_ & Hs & _ & _).
  split; [by rewrite Hs|].
  intros key episodes. rewrite resume_episodes.
  assert (∀ episodes,
            episodesByShowId (state w) !! key = Some episodes →
            ∃ tvShowId,
              key = Js.String_ tvShowId
              ∧ is_Some (fetchCache (resume url k p w) !! episodesUrl tvShowId))
    as Hold.
  { intros eps Hkey. destruct (Heps key eps Hkey) as (i & -> & [q Hq]).
    exists i. split; [done|].
    destruct (Hgrows _ _ Hq) as (q' & Hq' & _). eauto. }
  destruct k as [|tvShowId]; [apply Hold|].
  destruct p as [|[data|data]|]; try apply Hold.
  destruct (decide (Js.String_ tvShowId = key)) as [<-|Hne].
  - intros _. exists tvShowId. split; [done|].
    simpl in Hown. rewrite <- Hown.
    destruct (Hgrows _ _ Hp) as (q' & Hq' & _). eauto.
  - rewrite lookup_insert_ne by done. apply Hold.
Qed.

Lemma sameNet_store (w w' : World) :
  sameNet w w' → episodesByShowId (state w') = episodesByShowId (state w) →
  storeInvariant w → storeInvariant w'.
Proof.
  intros (Hc & _ & Hs & _) He. unfold storeInvariant. by rewrite Hc, Hs, He.
Qed.

Lemma getJson_store (url : string) (w : World) :
  storeInvariant w → storeInvariant (getJson url w).
Proof.
  intros [Hsusp Heps]. destruct (getJson_netStep url w) as (Hgrows & _ & _).
  assert (suspended (getJson url w) = suspended w
          ∧ state (getJson url w) = state w) as [Hs Hst].
  { unfold getJson. by destruct (fetchCache w !! url). }
  split; [by rewrite Hs|]. rewrite Hst.
  intros key episodes Hkey. destruct (Heps key episodes Hkey) as (i & -> & [q Hq]).
  exists i. split; [done|]. destruct (Hgrows _ _ Hq) as (q' & Hq' & _). eauto.
Qed.

Lemma await_store `{Host} (url : string) (k : Cont) (w : World) :
  ownUrl (url, k) → storeInvariant w → storeInvariant (await url k w).
Proof.
  intros Hown Hstore. unfold await.
  destruct (fetchCache w !! url) as [[|value|]|] eqn:Hp; [| | |done].
  - destruct Hstore as [Hsusp Heps]. split; [|done].
    simpl. intros entry [Hin|[<-|[]]]%in_app_or; auto.
  - by apply resume_store.
  - by apply resume_store.
Qed.

Lemma resumeAll_store `{Host} (url : string) (ks : list Cont) (w : World) :
  (∃ p, fetchCache w !! url = Some p ∧ p ≠ pending) →
  (∀ k, In k ks → ownUrl (url, k)) →
  storeInvariant w → storeInvariant (foldl (resumeAt url) w ks).
Proof.
  revert w. induction ks as [|k ks IH]; intros w (p & Hp & Hsettled) Hown Hstore;
    [done|].
  simpl. apply IH.
  - assert (netStep w (resumeAt url w k)) as (Hgrows & _ & _).
    { apply resumeAt_netStep. intros q Hq. congruence. }
    destruct (Hgrows url p Hp) as (p' & Hp' & Hlike).
    exists p'. split; [done | by eapply settledLike_settled].
  - intros k' Hin. apply Hown. by right.
  - unfold resumeAt. rewrite Hp. apply resume_store; auto. apply Hown. by left.
Qed.

Lemma settle_store `{Host} (url : string) (outcome : Outcome) (w : World) :
  storeInvariant w → storeInvariant (settle url outcome w).
Proof.
  intros [Hsusp Heps]. unfold settle.
  destruct (fetchCache w !! url) as [[|value|]|] eqn:Hp; try done.
  destruct (answers url outcome); [|done].
  apply resumeAll_store.
  - simpl. rewrite lookup_insert_eq. eexists. split; [done|].
    by destruct outcome.
  - intros k ((u & k') & <- & [Hin Hwaits]%filter_In)%in_map_iff.
    unfold waitsFor in Hwaits. simpl in Hwaits.
    apply String.eqb_eq in Hwaits as <-. by apply (Hsusp (u, k')).
  - split; simpl.
    + intros entry [Hin _]%filter_In. auto.
    + intros key episodes Hkey.
      destruct (Heps key episodes Hkey) as (i & -> & [q Hq]).
      exists i. split; [done|].
      destruct (decide (url = episodesUrl i)) as [<-|Hne].
      * rewrite lookup_insert_eq. eauto.
      * rewrite lookup_insert_ne by done. eauto.
Qed.

Lemma openShow_store `{Host} (tvShowId : Z) (w : World) :
  storeInvariant w → storeInvariant (openShow tvShowId w).
Proof.
  intros Hstore. unfold openShow.
  match goal with |- context [episodesByShowId (state ?x) !! _] =>
    set (w0 := x) end.
  assert (storeInvariant w0) as Hw0.
  { eapply sameNet_store; [| |exact Hstore]; by repeat split. }
  destruct (episodesByShowId (state w0) !! Js.String_ tvShowId).
  - eapply sameNet_store; [apply openShowFinish_frame | | exact Hw0].
    by rewrite (proj2 (openShowFinish_frame tvShowId w0)).
  - apply await_store; [done|]. apply getJson_store.
    eapply sameNet_store; [| |exact Hw0].
    + eapply sameNet_trans; [|apply renderStatus_frame]. by repeat split.
    + by rewrite (proj2 (renderStatus_frame _)).
Qed.

Lemma step_store `{Host} (w : World) (ev : Event) :
  storeInvariant w → storeInvariant (step w ev).
Proof.
  intros Hstore0. unfold step. cbv zeta.
  assert (storeInvariant (userInput ev w)) as Hstore.
  { eapply sameNet_store; [apply userInput_frame | | exact Hstore0].
    by rewrite (proj2 (userInput_frame ev w)). }
  revert Hstore. generalize (userInput ev w). clear w Hstore0.
  intros w Hstore.
  assert (∀ f : State → State,
            (∀ s, episodesByShowId (f s) = episodesByShowId s) →
            storeInvariant (render (upd_state f w))) as Hrender.
  { intros f Hf. eapply sameNet_store; [| |exact Hstore].
    - eapply sameNet_trans; [|apply render_frame]. by repeat split.
    - rewrite (proj2 (render_frame _)). simpl. apply Hf. }
  destruct ev; simpl; destruct (listening w); try exact Hstore.
  - apply await_store; [done|]. apply getJson_store.
    destruct Hstore as [Hsusp Heps]. by split.
  - by apply Hrender.
  - destruct value; [by apply openShow_store | done].
  - by apply openShow_store.
  - by apply Hrender.
  - unfold episodeSearchDidChange.
    eapply sameNet_store; [| |exact Hstore].
    + eapply sameNet_trans; [|apply render_frame]. by repeat split.
    + by rewrite (proj2 (render_frame _)).
  - by apply Hrender.
  - by apply settle_store.
  - by apply settle_store.
Qed.

Lemma reachable_storeInvariant `{Host} (events : list Event) :
  storeInvariant (run events initialWorld).
Proof.
  assert (∀ w, storeInvariant w → storeInvariant (run events w)) as Hrun.
  { induction events as [|ev events IH]; intros w Hw; [done|].
    apply IH. by apply step_store. }
  apply Hrun. split; [intros entry []|].
  intros key episodes Hkey. simpl in Hkey. by rewrite lookup_empty in Hkey.
Qed.

(** *** Opening a show *)

(** The first [openShow] of a show: its request is started and [openShow]
    is suspended on it. *)
Lemma openShow_miss `{Host} (tvShowId : Z) (w : World) :
  episodesByShowId (state w) !! Js.String_ tvShowId = None →
  fetchCache w !! episodesUrl tvShowId = None →
  let w1 := openShow tvShowId w in
  fetchCache w1 = <[episodesUrl tvShowId := pending]> (fetchCache w)
  ∧ fetchCalls w1 = episodesUrl tvShowId :: fetchCalls w
  ∧ suspended w1
    = (suspended w ++ [(episodesUrl tvShowId, openShowCont tvShowId)])%list
  ∧ status (state w1) = loading
  ∧ shows (state w1) = shows (state w)
  ∧ episodesByShowId (state w1) = episodesByShowId (state w).
Proof.
  intros Heps Hcache. unfold openShow. simpl. rewrite Heps.
  unfold getJson. simpl. rewrite Hcache.
  unfold await. simpl. rewrite lookup_insert_eq. done.
Qed.

(** [openShow] of a show whose episodes are stored: no request, nothing
    suspended, and the page is rendered from the stored episodes. *)
Lemma openShow_hit `{Host} (tvShowId : Z) (episodes : list Episode.t)
    (w : World) :
  episodesByShowId (state w) !! Js.String_ tvShowId = Some episodes →
  let w' := openShow tvShowId w in
  sameNet w w'
  ∧ status (state w') = status (state w)
  ∧ shows (state w') = shows (state w)
  ∧ episodesByShowId (state w') = episodesByShowId (state w)
  ∧ (status (state w) = loaded ∨ status (state w) = idle →
     ∃ heading,
       root (dom w') = rootEpisodesPage heading (filteredEpisodes episodes "" "")).
Proof.
  intros Heps. unfold openShow. simpl. rewrite Heps.
  match goal with |- context [openShowFinish ?i ?x] =>
    destruct (openShowFinish_frame i x) as [Hnet Hstate];
    split; [eapply sameNet_trans; [|exact Hnet]; by repeat split|];
    rewrite Hstate end.
  repeat split; try done.
  intros Hstatus. unfold openShowFinish, render. simpl.
  assert (Js.truthy (Js.String_ tvShowId) = true) as Htruthy
    by apply String_truthy.
  destruct Hstatus as [-> | ->]; unfold renderEpisodesView; simpl;
    rewrite Htruthy, Heps; simpl; eauto.
Qed.

Lemma fetchCount_cons (url u : string) (w : World) (calls : list string) :
  fetchCalls w = u :: calls →
  fetchCount url w
  = ((if String.eqb url u then 1 else 0)
     + List.length (List.filter (String.eqb url) calls))%nat.
Proof.
  intros Hcalls. unfold fetchCount. rewrite Hcalls. simpl.
  by destruct (String.eqb url u).
Qed.

(** No promise in [fetchCache], no call to [fetch] yet. *)
Lemma fetchCount_uncached `{Host} (events : list Event) (url : string) :
  fetchCache (run events initialWorld) !! url = None →
  fetchCount url (run events initialWorld) = 0%nat.
Proof.
  intros Hnone. destruct (reachable_netInvariant events) as (_ & Hcalls & _).
  unfold fetchCount. rewrite filter_none; [done|].
  intros u Hin. apply String.eqb_neq. intros <-.
  destruct (Hcalls url Hin) as [p Hp]. congruence.
Qed.

(** The response to the request of a just opened show stores its
    episodes. *)
Lemma openShow_response_stores `{Host} (tvShowId : Z)
    (episodes : list Episode.t) (w : World) :
  netInvariant w →
  episodesByShowId (state w) !! Js.String_ tvShowId = None →
  fetchCache w !! episodesUrl tvShowId = None →
  let w2 :=
    settle (episodesUrl tvShowId) (httpOk (JEpisodes episodes))
      (openShow tvShowId w) in
  episodesByShowId (state w2)
  = <[Js.String_ tvShowId := episodes]> (episodesByShowId (state w))
  ∧ status (state w2) = loaded
  ∧ fetchCache w2 !! episodesUrl tvShowId = Some (fulfilled (JEpisodes episodes))
  ∧ suspended w2 = suspended w.
Proof.
  intros (_ & _ & Hsusp) Heps Hcache.
  destruct (openShow_miss tvShowId w Heps Hcache)
    as (Hc1 & Hf1 & Hs1 & Hst1 & Hsh1 & He1).
  set (url := episodesUrl tvShowId) in *.
  set (w1 := openShow tvShowId w) in *.
  assert (∀ u k, In (u, k) (suspended w) → waitsFor url (u, k) = false)
    as Hnone.
  { intros u k Hin. apply String.eqb_neq. intros Heq. simpl in Heq. subst u.
    rewrite (Hsusp _ _ Hin) in Hcache. discriminate. }
  assert (List.filter (waitsFor url) (suspended w) = []) as Hwaiting.
  { apply filter_none. intros [u k]. apply Hnone. }
  assert (List.filter (fun e => negb (waitsFor url e)) (suspended w)
          = suspended w) as Hothers.
  { apply filter_all. intros [u k] Hin. by rewrite (Hnone u k Hin). }
  assert (waitsFor url (url, openShowCont tvShowId) = true) as Hself
    by apply String.eqb_refl.
  intros w2. subst w2. unfold settle.
  rewrite Hc1, lookup_insert_eq, Hs1.
  rewrite !List.filter_app, Hwaiting. simpl. rewrite Hself. simpl.
  unfold resumeAt. simpl. rewrite lookup_insert_eq.
  match goal with |- context [openShowFinish ?i ?x] =>
    destruct (openShowFinish_frame i x) as [(Hc2 & _ & Hs2 & _) Hst2] end.
  rewrite Hst2, Hc2, Hs2. simpl. rewrite He1, Hs1, lookup_insert_eq.
  rewrite List.filter_app, Hothers. simpl. rewrite Hself. simpl.
  by rewrite app_nil_r.
Qed.

(** Stored episodes are never dropped. *)
Lemma resume_keeps `{Host} (url : string) (k : Cont) (p : Promise) (w : World)
    (key : string) :
  is_Some (episodesByShowId (state w) !! key) →
  is_Some (episodesByShowId (state (resume url k p w)) !! key).
Proof.
  intros Hkey. rewrite resume_episodes.
  destruct k as [|tvShowId]; [done|]. destruct p as [|[data|data]|]; try done.
  rewrite lookup_insert_is_Some. destruct (decide (Js.String_ tvShowId = key));
    auto.
Qed.

Lemma await_keeps `{Host} (url : string) (k : Cont) (w : World) (key : string) :
  is_Some (episodesByShowId (state w) !! key) →
  is_Some (episodesByShowId (state (await url k w)) !! key).
Proof.
  intros Hkey. unfold await.
  destruct (fetchCache w !! url) as [[|value|]|]; try done;
    by apply resume_keeps.
Qed.

Lemma getJson_state (url : string) (w : World) :
  state (getJson url w) = state w.
Proof. unfold getJson. by destruct (fetchCache w !! url). Qed.

Lemma openShow_keeps `{Host} (tvShowId : Z) (w : World) (key : string) :
  is_Some (episodesByShowId (state w) !! key) →
  is_Some (episodesByShowId (state (openShow tvShowId w)) !! key).
Proof.
  intros Hkey. unfold openShow. simpl.
  destruct (episodesByShowId (state w) !! Js.String_ tvShowId).
  - by rewrite (proj2 (openShowFinish_frame _ _)).
  - apply await_keeps. by rewrite getJson_state.
Qed.

Lemma resumeAll_keeps `{Host} (url : string) (ks : list Cont) (w : World)
    (key : string) :
  is_Some (episodesByShowId (state w) !! key) →
  is_Some (episodesByShowId (state (foldl (resumeAt url) w ks)) !! key).
Proof.
  revert w. induction ks as [|k ks IH]; intros w Hkey; [done|].
  simpl. apply IH. unfold resumeAt.
  destruct (fetchCache w !! url); [by apply resume_keeps | done].
Qed.

Lemma step_keeps `{Host} (w : World) (ev : Event) (key : string) :
  is_Some (episodesByShowId (state w) !! key) →
  is_Some (episodesByShowId (state (step w ev)) !! key).
Proof.
  intros Hkey0. unfold step. cbv zeta.
  assert (is_Some (episodesByShowId (state (userInput ev w)) !! key)) as Hkey
    by (by rewrite (proj2 (userInput_frame ev w))).
  revert Hkey. generalize (userInput ev w). clear w Hkey0. intros w Hkey.
  destruct ev; simpl; destruct (listening w); try exact Hkey;
    try (unfold showSearchDidChange, episodeSelectionDidChange,
           episodeSearchDidChange, backDidClick;
         by rewrite (proj2 (render_frame _))).
  - apply await_keeps. by rewrite getJson_state.
  - destruct value; [by apply openShow_keeps | done].
  - by apply openShow_keeps.
  - unfold settle. destruct (fetchCache w !! url) as [[|value|]|]; try done.
    destruct (answers url outcome); [by apply resumeAll_keeps | done].
  - unfold settle. destruct (fetchCache w !! url) as [[|value|]|]; try done.
    destruct (answers url outcome); [by apply resumeAll_keeps | done].
Qed.

Lemma run_keeps `{Host} (events : list Event) (w : World) (key : string) :
  is_Some (episodesByShowId (state w) !! key) →
  is_Some (episodesByShowId (state (run events w)) !! key).
Proof.
  revert w. induction events as [|ev events IH]; intros w Hkey; [done|].
  apply IH. by apply step_keeps.
Qed.

Lemma getJson_hit (url : string) (p : Promise) (w : World) :
  fetchCache w !! url = Some p → getJson url w = w.
Proof. intros Hp. unfold getJson. by rewrite Hp. Qed.

Lemma getJson_miss (url : string) (w : World) :
  fetchCache w !! url = None →
  fetchCache (getJson url w) = <[url := pending]> (fetchCache w)
  ∧ fetchCalls (getJson url w) = url :: fetchCalls w.
Proof. intros Hp. unfold getJson. by rewrite Hp. Qed.

(** *** The URLs *)

Lemma append_inj_r (a b c : string) : a +:+ c = b +:+ c → a = b.
Proof.
  revert b. induction a as [|x a IH]; intros [|y b] Heq.
  - done.
  - apply (f_equal String.length) in Heq. rewrite !length_append in Heq.
    simpl in Heq. lia.
  - apply (f_equal String.length) in Heq. rewrite !length_append in Heq.
    simpl in Heq. lia.
  - rewrite !append_cons in Heq. injection Heq as -> Heq. f_equal. by apply IH.
Qed.

(** Different shows have different episode URLs, and none is the URL of
    the shows. *)
Lemma episodesUrl_inj (a b : Z) : episodesUrl a = episodesUrl b → a = b.
Proof.
  unfold episodesUrl. intros Heq. apply String.app_inj in Heq.
  apply append_inj_r in Heq. by apply String_inj.
Qed.

Lemma showsUrl_not_episodesUrl (tvShowId : Z) : showsUrl ≠ episodesUrl tvShowId.
Proof.
  unfold showsUrl, episodesUrl. intros Heq.
  apply (f_equal String.length) in Heq. rewrite length_append in Heq.
  simpl in Heq. lia.
Qed.

Lemma answers_episodes (tvShowId : Z) (episodes : list Episode.t) :
  answers (episodesUrl tvShowId) (httpOk (JEpisodes episodes)) = true.
Proof. reflexivity. Qed.

(** *** The promises of the other requests *)

Lemma render_cache `{Host} (w : World) : fetchCache (render w) = fetchCache w.
Proof. by destruct (render_frame w) as [(Hc & _) _]. Qed.

Lemma renderStatus_cache (w : World) :
  fetchCache (renderStatus w) = fetchCache w.
Proof. by destruct (renderStatus_frame w) as [(Hc & _) _]. Qed.

Lemma resume_cache_other `{Host} (url u : string) (k : Cont) (p : Promise)
    (w : World) :
  u ≠ url → fetchCache (resume url k p w) !! u = fetchCache w !! u.
Proof.
  intros Hne.
  destruct (resume_net url k p w)
    as (_ & _ & _ & [-> | (data & data' & _ & ->)]); [done|].
  by rewrite lookup_insert_ne.
Qed.

Lemma getJson_cache_other (url u : string) (w : World) :
  u ≠ url → fetchCache (getJson url w) !! u = fetchCache w !! u.
Proof.
  intros Hne. unfold getJson. destruct (fetchCache w !! url); [done|].
  simpl. by rewrite lookup_insert_ne.
Qed.

Lemma await_cache_other `{Host} (url u : string) (k : Cont) (w : World) :
  u ≠ url → fetchCache (await url k w) !! u = fetchCache w !! u.
Proof.
  intros Hne. unfold await.
  destruct (fetchCache w !! url) as [[|value|]|]; try done;
    by apply resume_cache_other.
Qed.

Lemma resumeAll_cache_other `{Host} (url u : string) (ks : list Cont)
    (w : World) :
  u ≠ url → fetchCache (foldl (resumeAt url) w ks) !! u = fetchCache w !! u.
Proof.
  intros Hne. revert w. induction ks as [|k ks IH]; intros w; [done|].
  simpl. rewrite IH. unfold resumeAt.
  destruct (fetchCache w !! url); [by apply resume_cache_other | done].
Qed.

Lemma settle_cache_other `{Host} (url u : string) (outcome : Outcome)
    (w : World) :
  u ≠ url → fetchCache (settle url outcome w) !! u = fetchCache w !! u.
Proof.
  intros Hne. unfold settle.
  destruct (fetchCache w !! url) as [[|value|]|]; try done.
  destruct (answers url outcome); [|done].
  rewrite resumeAll_cache_other by done. simpl. by rewrite lookup_insert_ne.
Qed.

Lemma setup_cache_other `{Host} (u : string) (w : World) :
  u ≠ showsUrl → fetchCache (setup w) !! u = fetchCache w !! u.
Proof.
  intros Hne. unfold setup.
  rewrite await_cache_other, getJson_cache_other by done.
  unfold renderStatus. simpl. by repeat case_match.
Qed.

Lemma openShow_cache_other `{Host} (tvShowId : Z) (u : string) (w : World) :
  u ≠ episodesUrl tvShowId →
  fetchCache (openShow tvShowId w) !! u = fetchCache w !! u.
Proof.
  intros Hne. unfold openShow. cbv zeta.
  match goal with |- context [episodesByShowId (state ?x) !! _] =>
    set (w0 := x) end.
  destruct (episodesByShowId (state w0) !! Js.String_ tvShowId).
  - by destruct (openShowFinish_frame tvShowId w0) as [(-> & _) _].
  - rewrite await_cache_other, getJson_cache_other by done.
    by rewrite renderStatus_cache.
Qed.

(** An [openShow] of a show whose request is pending leaves [fetchCache]
    as it is. *)
Lemma openShow_cache_pending `{Host} (tvShowId : Z) (w : World) :
  fetchCache w !! episodesUrl tvShowId = Some pending →
  fetchCache (openShow tvShowId w) = fetchCache w.
Proof.
  intros Hp. unfold openShow. cbv zeta.
  match goal with |- context [episodesByShowId (state ?x) !! _] =>
    set (w0 := x) end.
  destruct (episodesByShowId (state w0) !! Js.String_ tvShowId).
  - by destruct (openShowFinish_frame tvShowId w0) as [(-> & _) _].
  - match goal with |- context [getJson ?u ?x] =>
      assert (fetchCache x = fetchCache w) as Hx
        by (by rewrite renderStatus_cache);
      rewrite (getJson_hit u pending x) by (by rewrite Hx);
      unfold await; rewrite Hx, Hp; exact Hx
    end.
Qed.

(** The listeners that neither open a show nor are a response change no
    promise; the promise of the episodes of a show is changed only by an
    [openShow] of that show and by a response to its request. *)
Lemma step_cache_other `{Host} (tvShowId : Z) (w : World) (ev : Event) :
  opens tvShowId ev = false →
  respondsTo (episodesUrl tvShowId) ev = false →
  fetchCache (step w ev) !! episodesUrl tvShowId
  = fetchCache w !! episodesUrl tvShowId.
Proof.
  intros Hopens Hresponds. unfold step. cbv zeta.
  assert (fetchCache (userInput ev w) = fetchCache w) as <-
    by (by destruct ev).
  generalize (userInput ev w). clear w. intros w.
  assert (∀ i, Z.eqb i tvShowId = false →
               fetchCache (openShow i w) !! episodesUrl tvShowId
               = fetchCache w !! episodesUrl tvShowId) as Hopen.
  { intros i Hi%Z.eqb_neq. apply openShow_cache_other.
    intros Heq%episodesUrl_inj. congruence. }
  destruct ev; simpl in *; try destruct (listening w); try done;
    try (unfold showSearchDidChange, episodeSelectionDidChange,
           episodeSearchDidChange, backDidClick; by rewrite render_cache).
  - apply setup_cache_other. intros Heq.
    by destruct (showsUrl_not_episodesUrl tvShowId).
  - destruct value as [i|]; [by apply Hopen | done].
  - by apply Hopen.
  - apply settle_cache_other. apply String.eqb_neq in Hresponds. congruence.
  - apply settle_cache_other. apply String.eqb_neq in Hresponds. congruence.
Qed.

(** Before the first [openShow] of a show there is no promise for its
    episodes. *)
Lemma step_unopened `{Host} (tvShowId : Z) (w : World) (ev : Event) :
  opens tvShowId ev = false →
  fetchCache w !! episodesUrl tvShowId = None →
  fetchCache (step w ev) !! episodesUrl tvShowId = None.
Proof.
  intros Hopens Hnone.
  destruct (respondsTo (episodesUrl tvShowId) ev) eqn:Hresponds.
  - destruct ev; try done. simpl in Hresponds.
    apply String.eqb_eq in Hresponds as ->.
    unfold step, userInput, settle. cbv zeta. by rewrite Hnone.
  - by rewrite step_cache_other.
Qed.

Lemma run_unopened `{Host} (tvShowId : Z) (events : list Event) (w : World) :
  Forall (λ ev, opens tvShowId ev = false) events →
  fetchCache w !! episodesUrl tvShowId = None →
  fetchCache (run events w) !! episodesUrl tvShowId = None.
Proof.
  intros Hevents. revert w.
  induction Hevents as [|ev events Hev _ IH]; intros w Hnone; [done|].
  apply IH. by apply step_unopened.
Qed.

(** A pending request of episodes stays pending until its response. *)
Lemma step_pending `{Host} (tvShowId : Z) (w : World) (ev : Event) :
  respondsTo (episodesUrl tvShowId) ev = false →
  fetchCache w !! episodesUrl tvShowId = Some pending →
  fetchCache (step w ev) !! episodesUrl tvShowId = Some pending.
Proof.
  intros Hresponds Hp.
  destruct (opens tvShowId ev) eqn:Hopens;
    [|by rewrite step_cache_other].
  assert (step w ev
          = if listening (userInput ev w)
            then openShow tvShowId (userInput ev w) else userInput ev w)
    as ->.
  { destruct ev as [| |[i|]|i| | | |]; try done; simpl in Hopens;
      apply Z.eqb_eq in Hopens as ->; reflexivity. }
  assert (fetchCache (userInput ev w) = fetchCache w) as Hc
    by (by destruct ev).
  destruct (listening (userInput ev w)); [|by rewrite Hc].
  rewrite openShow_cache_pending; by rewrite Hc.
Qed.

Lemma uncached_not_stored `{Host} (events : list Event) (tvShowId : Z) :
  fetchCache (run events initialWorld) !! episodesUrl tvShowId = None →
  episodesByShowId (state (run events initialWorld)) !! Js.String_ tvShowId
  = None.
Proof.
  intros Hcache.
  destruct (episodesByShowId (state (run events initialWorld))
            !! Js.String_ tvShowId) as [episodes|] eqn:Heps; [|done].
  destruct (reachable_storeInvariant events) as [_ Hkeys].
  destruct (Hkeys _ _ Heps) as (i & Hi & [p Hp]).
  apply String_inj in Hi as <-. congruence.
Qed.

(** *** Every pending request is awaited *)

Lemma resume_waiters `{Host} (url : string) (k : Cont) (p : Promise) (w : World) :
  waiterInvariant w → waiterInvariant (resume url k p w).
Proof.
  intros Hw u. destruct (resume_net url k p w) as (_ & -> & _ & Hc).
  destruct Hc as [-> | (data & data' & _ & ->)]; [apply Hw|].
  destruct (decide (url = u)) as [<-|Hne].
  - rewrite lookup_insert_eq. done.
  - rewrite lookup_insert_ne by done. apply Hw.
Qed.

Lemma fetch_await_waiters `{Host} (url : string) (k : Cont) (w : World) :
  waiterInvariant w → waiterInvariant (await url k (getJson url w)).
Proof.
  intros Hw. unfold getJson.
  destruct (fetchCache w !! url) as [p|] eqn:Hp.
  - unfold await. rewrite Hp. destruct p as [|value|].
    + intros u Hu. simpl in *. destruct (Hw u Hu) as [k' Hk'].
      exists k'. apply in_or_app. by left.
    + by apply resume_waiters.
    + by apply resume_waiters.
  - unfold await. simpl. rewrite lookup_insert_eq.
    intros u. simpl. destruct (decide (url = u)) as [<-|Hne].
    + intros _. exists k. apply in_or_app. right. by left.
    + rewrite lookup_insert_ne by done. intros Hu.
      destruct (Hw u Hu) as [k' Hk']. exists k'. apply in_or_app. by left.
Qed.

Lemma resumeAll_waiters `{Host} (url : string) (ks : list Cont) (w : World) :
  waiterInvariant w → waiterInvariant (foldl (resumeAt url) w ks).
Proof.
  revert w. induction ks as [|k ks IH]; intros w Hw; [done|].
  simpl. apply IH. unfold resumeAt.
  destruct (fetchCache w !! url); [by apply resume_waiters | done].
Qed.

Lemma settle_waiters `{Host} (url : string) (outcome : Outcome) (w : World) :
  waiterInvariant w → waiterInvariant (settle url outcome w).
Proof.
  intros Hw. unfold settle.
  destruct (fetchCache w !! url) as [[|value|]|] eqn:Hp; try done.
  destruct (answers url outcome); [|done].
  apply resumeAll_waiters. intros u. simpl.
  destruct (decide (url = u)) as [<-|Hne].
  - rewrite lookup_insert_eq. by destruct outcome.
  - rewrite lookup_insert_ne by done. intros Hu.
    destruct (Hw u Hu) as [k Hk]. exists k. apply filter_In. split; [done|].
    unfold waitsFor. simpl. apply negb_true_iff, String.eqb_neq. congruence.
Qed.

Lemma sameNet_waiters (w w' : World) :
  sameNet w w' → waiterInvariant w → waiterInvariant w'.
Proof. intros (Hc & _ & Hs & _). unfold waiterInvariant. by rewrite Hc, Hs. Qed.

Lemma openShow_waiters `{Host} (tvShowId : Z) (w : World) :
  waiterInvariant w → waiterInvariant (openShow tvShowId w).
Proof.
  intros Hw. unfold openShow. cbv zeta.
  match goal with |- context [episodesByShowId (state ?x) !! _] =>
    set (w0 := x) end.
  assert (waiterInvariant w0) as Hw0
    by (eapply sameNet_waiters; [|exact Hw]; by repeat split).
  destruct (episodesByShowId (state w0) !! Js.String_ tvShowId).
  - eapply sameNet_waiters; [apply openShowFinish_frame | exact Hw0].
  - apply fetch_await_waiters.
    eapply sameNet_waiters; [|exact Hw0].
    eapply sameNet_trans; [|apply renderStatus_frame]. by repeat split.
Qed.

Lemma step_waiters `{Host} (w : World) (ev : Event) :
  waiterInvariant w → waiterInvariant (step w ev).
Proof.
  intros Hw0. unfold step. cbv zeta.
  assert (waiterInvariant (userInput ev w)) as Hw
    by (eapply sameNet_waiters; [apply userInput_frame | exact Hw0]).
  revert Hw. generalize (userInput ev w). clear w Hw0. intros w Hw.
  assert (∀ x, sameNet w x → waiterInvariant (render x)) as Hrender.
  { intros x Hx. eapply sameNet_waiters; [|exact Hw].
    eapply sameNet_trans; [exact Hx | apply render_frame]. }
  destruct ev; simpl; try destruct (listening w); try exact Hw;
    try (unfold showSearchDidChange, episodeSelectionDidChange,
           episodeSearchDidChange, backDidClick; apply Hrender;
         by repeat split).
  - unfold setup. apply fetch_await_waiters.
    intros u. unfold renderStatus. simpl.
    repeat case_match; apply Hw.
  - destruct value; [by apply openShow_waiters | done].
  - by apply openShow_waiters.
  - by apply settle_waiters.
  - by apply settle_waiters.
Qed.

Lemma reachable_waiterInvariant `{Host} (events : list Event) :
  waiterInvariant (run events initialWorld).
Proof.
  assert (∀ w, waiterInvariant w → waiterInvariant (run events w)) as Hrun.
  { induction events as [|ev events IH]; intros w Hw; [done|].
    apply IH. by apply step_waiters. }
  apply Hrun. intros url Hurl. simpl in Hurl. by rewrite lookup_empty in Hurl.
Qed.

(** *** What a response to an episode request does *)

(** What [resume] does to [state]. *)
Lemma resume_state `{Host} (url : string) (k : Cont) (p : Promise) (w : World) :
  state (resume url k p w)
  = match k, p with
    | setupCont, fulfilled (JShows data) =>
        set_currentView showsView
          (set_status loaded
             (set_shows (Js.sort compareShows data) (state w)))
    | setupCont, _ =>
        set_errorMessage "Unable to load shows. Please try again."
          (set_status error (state w))
    | openShowCont tvShowId, fulfilled (JEpisodes episodes) =>
        set_status loaded
          (set_episodesByShowId
             (<[Js.String_ tvShowId := episodes]> (episodesByShowId (state w)))
             (state w))
    | openShowCont _, _ => state w
    end.
Proof.
  destruct k as [|tvShowId], p as [|[data|data]|]; simpl;
    repeat match goal with
      | |- context [renderStatus ?x] =>
          rewrite (proj2 (renderStatus_frame x))
      | |- context [render ?x] => rewrite (proj2 (render_frame x))
      | |- context [openShowFinish ?i ?x] =>
          rewrite (proj2 (openShowFinish_frame i x))
      end; reflexivity.
Qed.

(** Those that await the episodes of a show are calls of [openShow] for
    that show. *)
Lemma waiters_episodes (tvShowId : Z) (w : World) :
  storeInvariant w →
  Forall (λ k, k = openShowCont tvShowId) (waiters (episodesUrl tvShowId) w).
Proof.
  intros [Hown _]. apply Forall_forall. intros k Hk%list_elem_of_In.
  unfold waiters in Hk. apply in_map_iff in Hk as ([u k'] & <- & Hin).
  apply filter_In in Hin as [Hin Hwaits]. unfold waitsFor in Hwaits.
  simpl in Hwaits. apply String.eqb_eq in Hwaits as ->.
  specialize (Hown _ Hin). unfold ownUrl in Hown. simpl in *.
  destruct k' as [|i].
  - by destruct (showsUrl_not_episodesUrl tvShowId).
  - by apply episodesUrl_inj in Hown as ->.
Qed.

Lemma resumeAll_episodes `{Host} (url : string) (tvShowId : Z)
    (episodes : list Episode.t) (ks : list Cont) (w : World) :
  fetchCache w !! url = Some (fulfilled (JEpisodes episodes)) →
  Forall (λ k, k = openShowCont tvShowId) ks →
  ks ≠ [] →
  let w' := foldl (resumeAt url) w ks in
  state w'
  = set_status loaded
      (set_episodesByShowId
         (<[Js.String_ tvShowId := episodes]> (episodesByShowId (state w)))
         (state w))
  ∧ fetchCache w' = fetchCache w
  ∧ fetchCalls w' = fetchCalls w
  ∧ suspended w' = suspended w.
Proof.
  intros Hp Hks. revert w Hp.
  induction Hks as [|k ks -> _ IH]; intros w Hp Hne; [done|].
  set (w1 := resume url (openShowCont tvShowId)
               (fulfilled (JEpisodes episodes)) w).
  assert (resumeAt url w (openShowCont tvShowId) = w1) as Hstep
    by (unfold resumeAt; by rewrite Hp).
  assert (state w1
          = set_status loaded
              (set_episodesByShowId
                 (<[Js.String_ tvShowId := episodes]>
                    (episodesByShowId (state w)))
                 (state w))) as Hstate by apply resume_state.
  destruct (resume_net url (openShowCont tvShowId)
              (fulfilled (JEpisodes episodes)) w) as (Hf & Hs & _ & Hc).
  fold w1 in Hf, Hs, Hc.
  destruct Hc as [Hc | (d & d' & [=] & _)].
  cbn [foldl]. rewrite Hstep.
  destruct ks as [|k ks]; [by cbn [foldl]|].
  destruct (IH w1) as (Hstate' & Hc' & Hf' & Hs'); [by rewrite Hc | done |].
  cbv zeta. rewrite Hstate', Hc', Hf', Hs', Hstate, Hc, Hf, Hs. simpl.
  by rewrite insert_insert_eq.
Qed.

Lemma resumeAll_no_episodes `{Host} (url : string) (tvShowId : Z) (p : Promise)
    (ks : list Cont) (w : World) :
  fetchCache w !! url = Some p →
  (∀ episodes, p ≠ fulfilled (JEpisodes episodes)) →
  Forall (λ k, k = openShowCont tvShowId) ks →
  foldl (resumeAt url) w ks = w.
Proof.
  intros Hp Hother Hks. induction Hks as [|k ks -> _ IH]; [done|].
  cbn [foldl]. unfold resumeAt at 2. rewrite Hp.
  assert (resume url (openShowCont tvShowId) p w = w) as ->; [|exact IH].
  destruct p as [|[data|data]|]; try done. by destruct (Hother data).
Qed.

(** The response with the episodes of a pending request, in any session:
    whatever happened since the request was made, the episodes are stored
    under the id of the show of the request. *)
Lemma settle_episodes `{Host} (events : list Event) (tvShowId : Z)
    (episodes : list Episode.t) :
  let w := run events initialWorld in
  let url := episodesUrl tvShowId in
  fetchCache w !! url = Some pending →
  let w' := settle url (httpOk (JEpisodes episodes)) w in
  state w'
  = set_status loaded
      (set_episodesByShowId
         (<[Js.String_ tvShowId := episodes]> (episodesByShowId (state w)))
         (state w))
  ∧ fetchCache w' = <[url := fulfilled (JEpisodes episodes)]> (fetchCache w)
  ∧ fetchCalls w' = fetchCalls w
  ∧ suspended w' = List.filter (λ e, negb (waitsFor url e)) (suspended w).
Proof.
  intros w url Hp w'. subst w'. unfold settle.
  rewrite Hp. subst url. rewrite answers_episodes.
  set (url := episodesUrl tvShowId) in *.
  pose proof (waiters_episodes tvShowId w (reachable_storeInvariant events))
    as Hks.
  assert (waiters url w ≠ []) as Hne.
  { destruct (reachable_waiterInvariant events url Hp) as [k Hk].
    fold w in Hk. unfold waiters. intros Hnil.
    assert (In k (map snd (List.filter (waitsFor url) (suspended w)))) as Hin.
    { apply in_map_iff. exists (url, k). split; [done|].
      apply filter_In. split; [done|]. apply String.eqb_refl. }
    rewrite Hnil in Hin. done. }
  fold url in Hks. unfold waiters in Hks, Hne.
  match goal with |- context [foldl _ ?x ?ks] =>
    destruct (resumeAll_episodes url tvShowId episodes ks x)
      as (-> & -> & -> & ->) end;
    [by simpl; rewrite lookup_insert_eq | done | done | done].
Qed.

(** A failed response to a pending episode request changes neither the
    state nor the document. *)
Lemma settle_episodes_failed `{Host} (events : list Event) (tvShowId : Z) :
  let w := run events initialWorld in
  let url := episodesUrl tvShowId in
  fetchCache w !! url = Some pending →
  let w' := settle url httpFailed w in
  state w' = state w ∧ dom w' = dom w ∧ fetchCalls w' = fetchCalls w.
Proof.
  intros w url Hp w'. subst w'. unfold settle. rewrite Hp. simpl.
  pose proof (waiters_episodes tvShowId w (reachable_storeInvariant events))
    as Hks.
  fold url in Hks. unfold waiters in Hks.
  by rewrite (resumeAll_no_episodes url tvShowId rejected);
    [| by simpl; rewrite lookup_insert_eq | | ].
Qed.

(** *** The shapes of the answers *)

Lemma resume_shapes `{Host} (url : string) (k : Cont) (p : Promise) (w : World) :
  fetchCache w !! url = Some p →
  shapeInvariant w → shapeInvariant (resume url k p w).
Proof.
  intros Hp Hw u body.
  destruct (resume_net url k p w)
    as (_ & _ & _ & [-> | (data & data' & -> & ->)]); [apply Hw|].
  destruct (decide (url = u)) as [<-|Hne].
  - rewrite lookup_insert_eq. intros [= <-]. by apply (Hw url (JShows data)).
  - rewrite lookup_insert_ne by done. apply Hw.
Qed.

Lemma fetch_await_shapes `{Host} (url : string) (k : Cont) (w : World) :
  shapeInvariant w → shapeInvariant (await url k (getJson url w)).
Proof.
  intros Hw. unfold getJson.
  destruct (fetchCache w !! url) as [p|] eqn:Hp.
  - unfold await. rewrite Hp. destruct p as [|value|]; [done| |];
      by apply resume_shapes.
  - unfold await. simpl. rewrite lookup_insert_eq.
    intros u body. simpl. destruct (decide (url = u)) as [<-|Hne].
    + by rewrite lookup_insert_eq.
    + rewrite lookup_insert_ne by done. apply Hw.
Qed.

Lemma resumeAll_shapes `{Host} (url : string) (ks : list Cont) (w : World) :
  shapeInvariant w → shapeInvariant (foldl (resumeAt url) w ks).
Proof.
  revert w. induction ks as [|k ks IH]; intros w Hw; [done|].
  simpl. apply IH. unfold resumeAt.
  destruct (fetchCache w !! url) eqn:Hp; [by apply resume_shapes | done].
Qed.

Lemma settle_shapes `{Host} (url : string) (outcome : Outcome) (w : World) :
  shapeInvariant w → shapeInvariant (settle url outcome w).
Proof.
  intros Hw. unfold settle.
  destruct (fetchCache w !! url) as [[|value|]|] eqn:Hp; try done.
  destruct (answers url outcome) eqn:Hanswers; [|done].
  apply resumeAll_shapes. intros u body. simpl.
  destruct (decide (url = u)) as [<-|Hne].
  - rewrite lookup_insert_eq. destruct outcome; [|done]. by intros [= <-].
  - rewrite lookup_insert_ne by done. apply Hw.
Qed.

Lemma sameNet_shapes (w w' : World) :
  sameNet w w' → shapeInvariant w → shapeInvariant w'.
Proof. intros (Hc & _). unfold shapeInvariant. by rewrite Hc. Qed.

Lemma openShow_shapes `{Host} (tvShowId : Z) (w : World) :
  shapeInvariant w → shapeInvariant (openShow tvShowId w).
Proof.
  intros Hw. unfold openShow. cbv zeta.
  match goal with |- context [episodesByShowId (state ?x) !! _] =>
    set (w0 := x) end.
  assert (shapeInvariant w0) as Hw0
    by (eapply sameNet_shapes; [|exact Hw]; by repeat split).
  destruct (episodesByShowId (state w0) !! Js.String_ tvShowId).
  - eapply sameNet_shapes; [apply openShowFinish_frame | exact Hw0].
  - apply fetch_await_shapes.
    eapply sameNet_shapes; [|exact Hw0].
    eapply sameNet_trans; [|apply renderStatus_frame]. by repeat split.
Qed.

Lemma step_shapes `{Host} (w : World) (ev : Event) :
  shapeInvariant w → shapeInvariant (step w ev).
Proof.
  intros Hw0. unfold step. cbv zeta.
  assert (shapeInvariant (userInput ev w)) as Hw
    by (eapply sameNet_shapes; [apply userInput_frame | exact Hw0]).
  revert Hw. generalize (userInput ev w). clear w Hw0. intros w Hw.
  assert (∀ x, sameNet w x → shapeInvariant (render x)) as Hrender.
  { intros x Hx. eapply sameNet_shapes; [|exact Hw].
    eapply sameNet_trans; [exact Hx | apply render_frame]. }
  destruct ev; simpl; try destruct (listening w); try exact Hw;
    try (unfold showSearchDidChange, episodeSelectionDidChange,
           episodeSearchDidChange, backDidClick; apply Hrender;
         by repeat split).
  - unfold setup. apply fetch_await_shapes.
    intros u. unfold renderStatus. simpl.
    repeat case_match; apply Hw.
  - destruct value; [by apply openShow_shapes | done].
  - by apply openShow_shapes.
  - by apply settle_shapes.
  - by apply settle_shapes.
Qed.

Lemma reachable_shapeInvariant `{Host} (events : list Event) :
  shapeInvariant (run events initialWorld).
Proof.
  assert (∀ w, shapeInvariant w → shapeInvariant (run events w)) as Hrun.
  { induction events as [|ev events IH]; intros w Hw; [done|].
    apply IH. by apply step_shapes. }
  apply Hrun. intros url body Hurl. simpl in Hurl.
  by rewrite lookup_empty in Hurl.
Qed.

(** In a session, a function that awaits the request it made receives an
    answer of the shape it expects: [setup] never receives episodes and
    [openShow] never receives shows. *)
Lemma awaited_shapes `{Host} (events : list Event) (url : string) (k : Cont)
    (body : Json) :
  ownUrl (url, k) →
  fetchCache (run events initialWorld) !! url = Some (fulfilled body) →
  match k, body with
  | setupCont, JShows _ | openShowCont _, JEpisodes _ => True
  | _, _ => False
  end.
Proof.
  intros Hown Hp.
  pose proof (reachable_shapeInvariant events url body Hp) as Hshape.
  unfold ownUrl in Hown. simpl in Hown.
  destruct k as [|tvShowId], body as [data|episodes]; try done; subst url;
    by vm_compute in Hshape.
Qed.

(** The functions resumed by a response receive an answer of the shape
    they expect, too: the response is one the API gives for the URL. *)
Lemma resumed_shapes (w : World) (url : string) (k : Cont) (body : Json) :
  storeInvariant w → In (url, k) (suspended w) →
  answers url (httpOk body) = true →
  match k, body with
  | setupCont, JShows _ | openShowCont _, JEpisodes _ => True
  | _, _ => False
  end.
Proof.
  intros [Hown _] Hin Hanswers. specialize (Hown _ Hin).
  unfold ownUrl in Hown. simpl in Hown.
  destruct k as [|tvShowId], body as [data|episodes]; try done; subst url;
    by vm_compute in Hanswers.
Qed.

(** C1. In every session and for every show, at most one call to [fetch]
    is made for the episodes of the show.  As long as the show has not been
    opened, no request for its episodes has been made and no episodes are
    stored under its id.  The [openShow] that finds no promise for the
    episodes makes the one call, and the request is pending from then on,
    whatever else happens, until its response.  Whenever the response
    arrives, and whatever show is selected by then, its episodes are stored
    under the id of the show that was opened, and no other field but
    [status] changes.  Stored episodes stay stored, and an [openShow] of a
    show whose episodes are stored makes no request, suspends nothing and
    renders the page from the stored episodes. *)
Theorem openShow_fetches_once `{Host} (events : list Event) (tvShowId : Z) :
  let w := run events initialWorld in
  let url := episodesUrl tvShowId in
  (fetchCount url w ≤ 1)%nat
  ∧ (Forall (λ ev, opens tvShowId ev = false) events →
     fetchCache w !! url = None
     ∧ fetchCount url w = 0%nat
     ∧ episodesByShowId (state w) !! Js.String_ tvShowId = None)
  ∧ (listening w = true → fetchCache w !! url = None →
     ∀ ev, opens tvShowId ev = true →
       let w1 := step w ev in
       fetchCount url w = 0%nat
       ∧ fetchCalls w1 = url :: fetchCalls w
       ∧ fetchCount url w1 = 1%nat
       ∧ fetchCache w1 !! url = Some pending
       ∧ episodesByShowId (state w1) = episodesByShowId (state w))
  ∧ (fetchCache w !! url = Some pending →
     (∀ ev, respondsTo url ev = false →
            fetchCache (step w ev) !! url = Some pending)
     ∧ ∀ episodes,
         let w2 := step w (Response url (httpOk (JEpisodes episodes))) in
         state w2
         = set_status loaded
             (set_episodesByShowId
                (<[Js.String_ tvShowId := episodes]>
                   (episodesByShowId (state w)))
                (state w))
         ∧ fetchCache w2 !! url = Some (fulfilled (JEpisodes episodes))
         ∧ fetchCalls w2 = fetchCalls w)
  ∧ (∀ episodes,
       episodesByShowId (state w) !! Js.String_ tvShowId = Some episodes →
       (∀ later,
          is_Some
            (episodesByShowId (state (run later w)) !! Js.String_ tvShowId))
       ∧ let w' := step w (ShowCardActivate tvShowId) in
         fetchCalls w' = fetchCalls w
         ∧ fetchCache w' = fetchCache w
         ∧ suspended w' = suspended w
         ∧ episodesByShowId (state w') = episodesByShowId (state w)
         ∧ (listening w = true → status (state w) = loaded →
            ∃ heading,
              root (dom w')
              = rootEpisodesPage heading (filteredEpisodes episodes "" ""))).
Proof.
  intros w url.
  pose proof (reachable_netInvariant events) as Hnet. fold w in Hnet.
  split; [| split; [| split; [| split]]].
  - destruct Hnet as (Hnodup & _). by apply count_NoDup.
  - intros Hevents.
    assert (fetchCache w !! url = None) as Hnone by (by apply run_unopened).
    split; [done|].
    split; [by apply fetchCount_uncached | by apply uncached_not_stored].
  - intros Hlistening Hcache ev Hopens.
    assert (episodesByShowId (state w) !! Js.String_ tvShowId = None) as Heps
      by (by apply uncached_not_stored).
    assert (fetchCount url w = 0%nat) as Hzero
      by (by apply fetchCount_uncached).
    assert (step w ev = openShow tvShowId (userInput ev w)) as ->.
    { destruct ev as [| |[i|]|i| | | |]; try done; simpl in Hopens;
        apply Z.eqb_eq in Hopens as ->; unfold step; simpl;
        by rewrite Hlistening. }
    destruct (userInput_frame ev w) as [(Hc0 & Hf0 & _) Hs0].
    destruct (openShow_miss tvShowId (userInput ev w))
      as (Hc1 & Hf1 & _ & _ & _ & He1);
      [by rewrite Hs0 | by rewrite Hc0 |].
    rewrite Hf0 in Hf1. rewrite Hc0 in Hc1. rewrite Hs0 in He1.
    split; [done|]. split; [done|]. split; [|split; [|done]].
    + rewrite (fetchCount_cons _ _ _ _ Hf1), String.eqb_refl.
      unfold fetchCount in Hzero. by rewrite Hzero.
    + by rewrite Hc1, lookup_insert_eq.
  - intros Hp. split; [intros ev Hev; by apply step_pending|].
    intros episodes. cbv zeta.
    change (step ?x (Response ?u ?o)) with (settle u o x).
    clear Hnet. subst url w.
    destruct (settle_episodes events tvShowId episodes Hp)
      as (-> & -> & -> & _).
    by rewrite lookup_insert_eq.
  - intros episodes Heps. split.
    { intros later. apply run_keeps. by rewrite Heps. }
    unfold step. simpl. destruct (listening w).
    + destruct (openShow_hit tvShowId episodes w Heps)
        as ((Hc & Hf & Hs & _) & _ & _ & He & Hroot).
      repeat split; try done. intros _ Hloaded. apply Hroot. by left.
    + repeat split; try done.
Qed.

Lemma openShow_fetches_once_witness :
  (fetchCache (run (H := AsciiHost) sessionInterleaved initialWorld)
   !! episodesUrl 30 = None
   ∧ fetchCount (episodesUrl 30)
       (run (H := AsciiHost) sessionInterleaved initialWorld) = 0%nat)
  ∧ (fetchCalls
       (step (H := AsciiHost) (run (H := AsciiHost) sessionLoaded initialWorld)
          (ShowCardActivate 10))
     = episodesUrl 10
       :: fetchCalls (run (H := AsciiHost) sessionLoaded initialWorld))
  ∧ (let w2 :=
       step (H := AsciiHost)
         (run (H := AsciiHost) sessionInterleaved initialWorld)
         (Response (episodesUrl 10) (httpOk (JEpisodes sampleEpisodes))) in
     episodesByShowId (state w2) !! "10" = Some sampleEpisodes
     ∧ episodesByShowId (state w2) !! "20" = None
     ∧ selectedShowId (state w2) = "20")
  ∧ (fetchCalls
       (step (H := AsciiHost) (run (H := AsciiHost) sessionOpened initialWorld)
          (ShowCardActivate 10))
     = fetchCalls (run (H := AsciiHost) sessionOpened initialWorld))
  ∧ (fetchCount (episodesUrl 10)
       (run (H := AsciiHost) (sessionOpened ++ [BackClick; ShowCardActivate 10])
          initialWorld)
     ≤ 1)%nat.
Proof.
  split; [| split; [| split; [| split]]].
  - pose proof (openShow_fetches_once (H := AsciiHost) sessionInterleaved 30)
      as (_ & Hunopened & _).
    destruct Hunopened as (Hnone & Hzero & _);
      [repeat constructor | by split].
  - pose proof (openShow_fetches_once (H := AsciiHost) sessionLoaded 10)
      as (_ & _ & Hfirst & _).
    destruct (Hfirst eq_refl eq_refl (ShowCardActivate 10) eq_refl)
      as (_ & Hcalls & _).
    exact Hcalls.
  - pose proof (openShow_fetches_once (H := AsciiHost) sessionInterleaved 10)
      as (_ & _ & _ & Hresponse & _).
    destruct (Hresponse eq_refl) as (_ & Hstored).
    destruct (Hstored sampleEpisodes) as (Hstate & _).
    cbv zeta. rewrite Hstate.
    split; [|split]; vm_compute; reflexivity.
  - pose proof (openShow_fetches_once (H := AsciiHost) sessionOpened 10)
      as (_ & _ & _ & _ & Hstored).
    destruct (Hstored sampleEpisodes eq_refl) as (_ & Hcalls & _).
    exact Hcalls.
  - apply (openShow_fetches_once (H := AsciiHost)
             (sessionOpened ++ [BackClick; ShowCardActivate 10]) 10).
Defined.

(** *** The fetch cache *)

Lemma settle_entry `{Host} (url : string) (outcome : Outcome) (w : World) :
  fetchCache w !! url = Some pending →
  answers url outcome = true →
  ∃ p, fetchCache (settle url outcome w) !! url = Some p
       ∧ settledLike
           match outcome with
           | httpOk body => fulfilled body
           | httpFailed => rejected
           end p.
Proof.
  intros Hp Hanswers. unfold settle. rewrite Hp, Hanswers.
  match goal with |- context [foldl _ ?x ?ks] =>
    destruct (resumeAll_netStep url ks x) as (Hgrows & _) end.
  { simpl. rewrite lookup_insert_eq. intros p [= <-]. by destruct outcome. }
  apply Hgrows. simpl. by rewrite lookup_insert_eq.
Qed.

(** C10. In every session, [fetch] is called at most once for a URL, also
    when the request fails: [getJson] stores the promise of the request in
    [fetchCache] when it starts it, a later [getJson] for the URL returns the
    stored promise without a request, and once the request has failed the
    stored promise stays rejected and no event makes another call to
    [fetch] for the URL. *)
Theorem getJson_fetches_once `{Host} (events : list Event) (url : string) :
  let w := run events initialWorld in
  (fetchCount url w ≤ 1)%nat
  ∧ (fetchCache w !! url = None →
     fetchCache (getJson url w) !! url = Some pending
     ∧ fetchCalls (getJson url w) = url :: fetchCalls w)
  ∧ (∀ p, fetchCache w !! url = Some p → getJson url w = w)
  ∧ (fetchCache w !! url = Some pending →
     ∀ later,
       let w' := run later (step w (Response url httpFailed)) in
       fetchCache w' !! url = Some rejected
       ∧ getJson url w' = w'
       ∧ fetchCount url w' = fetchCount url w).
Proof.
  intros w. split; [| split; [| split]].
  - destruct (reachable_netInvariant events) as (Hnodup & _).
    by apply count_NoDup.
  - intros Hnone. destruct (getJson_miss url w Hnone) as [-> ->].
    by rewrite lookup_insert_eq.
  - intros p. apply getJson_hit.
  - intros Hpending later.
    change (step w (Response url httpFailed)) with (settle url httpFailed w).
    destruct (settle_entry url httpFailed w Hpending eq_refl)
      as (p & Hp & ->).
    destruct (cached_never_refetched url rejected later _ Hp)
      as (Hcount & p' & Hp' & ->).
    split; [done|]. split; [by eapply getJson_hit|].
    rewrite Hcount.
    destruct (settle_netStep url httpFailed w) as (_ & (new & Hcalls & Hnew) & _).
    unfold fetchCount. rewrite Hcalls. apply count_app_fresh.
    intros Hin. apply Hnew in Hin. congruence.
Qed.

Lemma getJson_fetches_once_witness :
  let w :=
    run (H := AsciiHost) (sessionOpened ++ [BackClick; ShowCardActivate 20])
      initialWorld in
  fetchCache w !! episodesUrl 20 = Some pending
  ∧ fetchCache
      (run (H := AsciiHost) [ShowCardActivate 20; ShowCardActivate 20]
         (step (H := AsciiHost) w (Response (episodesUrl 20) httpFailed)))
    !! episodesUrl 20 = Some rejected
  ∧ fetchCache (getJson "https://api.tvmaze.com/shows/30/episodes" w)
    !! "https://api.tvmaze.com/shows/30/episodes" = Some pending.
Proof.
  intros w. split; [by vm_compute|]. split.
  - pose proof (getJson_fetches_once (H := AsciiHost)
                  (sessionOpened ++ [BackClick; ShowCardActivate 20])
                  (episodesUrl 20)) as (_ & _ & _ & Hfailed).
    destruct (Hfailed ltac:(vm_compute; reflexivity)
                [ShowCardActivate 20; ShowCardActivate 20]) as (Hrejected & _).
    exact Hrejected.
  - pose proof (getJson_fetches_once (H := AsciiHost)
                  (sessionOpened ++ [BackClick; ShowCardActivate 20])
                  "https://api.tvmaze.com/shows/30/episodes")
      as (_ & Hmiss & _).
    destruct (Hmiss ltac:(vm_compute; reflexivity)) as (Hpending & _).
    exact Hpending.
Defined.

(** C6, as stated, fails: it would make every promise in [fetchCache] a
    pending one, but the promise of the shows is still there, fulfilled,
    after the shows have arrived. *)
Lemma fetchCache_retains_completed :
  ¬ (∀ events url p,
       fetchCache (run (H := AsciiHost) events initialWorld) !! url = Some p →
       p = pending).
Proof.
  intros Hall.
  specialize (Hall sessionLoaded showsUrl
                (fulfilled (JShows [showAlpha; showBeta; showZeta]))).
  assert (fulfilled (JShows [showAlpha; showBeta; showZeta]) = pending)
    as Habsurd by (apply Hall; by vm_compute).
  discriminate.
Qed.

(** C6, amended. [getJson] makes one request per URL and keeps its promise:
    a call for a URL whose promise is in [fetchCache], pending or settled,
    makes no request and gets that promise, so two calls while the first is
    pending share one request; and whatever happens later, the promise stays
    in [fetchCache], settled if it was, and no further call to [fetch] is
    made for the URL. *)
Theorem getJson_shares_and_keeps `{Host} (events : list Event) (url : string) :
  let w := run events initialWorld in
  (fetchCache w !! url = None →
   fetchCalls (getJson url (getJson url w)) = url :: fetchCalls w
   ∧ fetchCache (getJson url (getJson url w)) !! url = Some pending)
  ∧ (∀ p, fetchCache w !! url = Some p →
     getJson url w = w
     ∧ ∀ later,
         fetchCount url (run later w) = fetchCount url w
         ∧ ∃ p', fetchCache (run later w) !! url = Some p' ∧ settledLike p p').
Proof.
  intros w. split.
  - intros Hnone. destruct (getJson_miss url w Hnone) as [Hcache Hcalls].
    assert (fetchCache (getJson url w) !! url = Some pending) as Hpending
      by (by rewrite Hcache, lookup_insert_eq).
    by rewrite (getJson_hit url pending _ Hpending).
  - intros p Hp. split; [by eapply getJson_hit|].
    intros later. by apply cached_never_refetched.
Qed.

Lemma getJson_shares_and_keeps_witness :
  let w := run (H := AsciiHost) sessionLoaded initialWorld in
  fetchCache w !! showsUrl
  = Some (fulfilled (JShows [showAlpha; showBeta; showZeta]))
  ∧ getJson showsUrl w = w
  ∧ fetchCalls (getJson (episodesUrl 10) (getJson (episodesUrl 10) w))
    = episodesUrl 10 :: fetchCalls w.
Proof.
  intros w. split; [by vm_compute|]. split.
  - apply (getJson_shares_and_keeps (H := AsciiHost) sessionLoaded showsUrl)
      with (p := fulfilled (JShows [showAlpha; showBeta; showZeta])).
    by vm_compute.
  - apply (getJson_shares_and_keeps (H := AsciiHost) sessionLoaded
             (episodesUrl 10)).
    by vm_compute.
Defined.

(** ** Episode selection and episode search *)

(** What the two listeners write, in every world: a change of the episode
    search text stores the text and clears [selectedEpisodeId]; a change of
    the episode selection stores the selected id and leaves
    [episodeSearchText] as it is. *)
Lemma episode_listeners_write `{Host} (w : World) (value : string) :
  (episodeSearchText (state (episodeSearchDidChange value w)) = value
   ∧ selectedEpisodeId (state (episodeSearchDidChange value w)) = "")
  ∧ (selectedEpisodeId (state (episodeSelectionDidChange value w)) = value
     ∧ episodeSearchText (state (episodeSelectionDidChange value w))
       = episodeSearchText (state w)).
Proof.
  unfold episodeSearchDidChange, episodeSelectionDidChange.
  by rewrite !(proj2 (render_frame _)).
Qed.

(** C2, at the failing input.  The shows are loaded, show 10 is opened and
    its episodes arrive; the user searches for a word and then picks
    episode 102 in the episode select.  Both [selectedEpisodeId] and
    [episodeSearchText] are then non-empty, and the search box still holds
    the word.  When the user then picks the first option of the select,
    the selection is cleared, but the page lists only the episode that
    matches the word, not all three episodes. *)
Theorem episodeSelection_keeps_search_text :
  let w := run (H := AsciiHost) sessionSelected initialWorld in
  let w' := step (H := AsciiHost) w (EpisodeSelectChange "") in
  selectedEpisodeId (state w) = "102"
  ∧ episodeSearchText (state w) = "pilot"
  ∧ episodeSelectValue (dom w) = "102"
  ∧ episodeSearchValue (dom w) = "pilot"
  ∧ root (dom w) = rootEpisodesPage (Some "Zeta") [episodeFallout]
  ∧ selectedEpisodeId (state w') = ""
  ∧ episodeSearchText (state w') = "pilot"
  ∧ root (dom w') = rootEpisodesPage (Some "Zeta") [episodePilot]
  ∧ episodesByShowId (state w') !! "10" = Some sampleEpisodes.
Proof. repeat split; vm_compute; reflexivity. Qed.

(** ** Failures *)

(** The response to the request of a just opened show reaches [openShow],
    and only it. *)
Lemma openShow_response `{Host} (tvShowId : Z) (outcome : Outcome) (w : World) :
  netInvariant w →
  episodesByShowId (state w) !! Js.String_ tvShowId = None →
  fetchCache w !! episodesUrl tvShowId = None →
  answers (episodesUrl tvShowId) outcome = true →
  let p :=
    match outcome with
    | httpOk body => fulfilled body
    | httpFailed => rejected
    end in
  settle (episodesUrl tvShowId) outcome (openShow tvShowId w)
  = resume (episodesUrl tvShowId) (openShowCont tvShowId) p
      (upd_suspended (λ _, suspended w)
         (upd_fetchCache (insert (episodesUrl tvShowId) p)
            (openShow tvShowId w))).
Proof.
  intros (_ & _ & Hsusp) Heps Hcache Hanswers p.
  destruct (openShow_miss tvShowId w Heps Hcache) as (Hc1 & _ & Hs1 & _).
  set (url := episodesUrl tvShowId) in *.
  set (w1 := openShow tvShowId w) in *.
  assert (∀ u k, In (u, k) (suspended w) → waitsFor url (u, k) = false)
    as Hnone.
  { intros u k Hin. apply String.eqb_neq. intros Heq. simpl in Heq. subst u.
    rewrite (Hsusp _ _ Hin) in Hcache. discriminate. }
  assert (List.filter (waitsFor url) (suspended w) = []) as Hwaiting.
  { apply filter_none. intros [u k]. apply Hnone. }
  assert (List.filter (fun e => negb (waitsFor url e)) (suspended w)
          = suspended w) as Hothers.
  { apply filter_all. intros [u k] Hin. by rewrite (Hnone u k Hin). }
  assert (waitsFor url (url, openShowCont tvShowId) = true) as Hself
    by apply String.eqb_refl.
  unfold settle. rewrite Hc1, lookup_insert_eq, Hs1, Hanswers.
  rewrite List.filter_app, Hwaiting. simpl. rewrite Hself. simpl.
  unfold resumeAt. simpl. rewrite lookup_insert_eq. fold p.
  replace (upd_suspended (List.filter (λ e, negb (waitsFor url e)))
             (upd_fetchCache (insert url p) w1))
    with (upd_suspended (λ _, suspended w)
            (upd_fetchCache (insert url p) w1)); [done|].
  unfold upd_suspended. simpl. rewrite Hs1.
  rewrite List.filter_app, Hothers. simpl. rewrite Hself. simpl.
  by rewrite app_nil_r.
Qed.

(** What a failed episode request leaves behind: the shows and the stored
    episodes are as before, but so are [status], which [openShow] had set
    to [loading], and the error message; the page shows the loading text,
    also after going back to the shows. *)
Lemma openShow_failure `{Host} (tvShowId : Z) (w : World) :
  netInvariant w →
  episodesByShowId (state w) !! Js.String_ tvShowId = None →
  fetchCache w !! episodesUrl tvShowId = None →
  let w2 := settle (episodesUrl tvShowId) httpFailed (openShow tvShowId w) in
  shows (state w2) = shows (state w)
  ∧ episodesByShowId (state w2) = episodesByShowId (state w)
  ∧ status (state w2) = loading
  ∧ errorMessage (state w2) = errorMessage (state w)
  ∧ root (dom w2) = rootText "Loading…"
  ∧ root (dom (backDidClick w2)) = rootText "Loading…".
Proof.
  intros Hnet Heps Hcache w2. subst w2.
  rewrite (openShow_response tvShowId httpFailed w Hnet Heps Hcache eq_refl).
  simpl. unfold openShow. simpl. rewrite Heps. simpl.
  unfold getJson. simpl. rewrite Hcache. unfold await. simpl.
  rewrite lookup_insert_eq. simpl. done.
Qed.

(** A failed shows request ends in the error state, with its message on
    the page. *)
Lemma setup_failure `{Host} :
  let w := run [Load; Response showsUrl httpFailed] initialWorld in
  status (state w) = error
  ∧ errorMessage (state w) = "Unable to load shows. Please try again."
  ∧ root (dom w) = rootText "Unable to load shows. Please try again.".
Proof. done. Qed.

(** C5, at the failing input.  The shows are loaded, show 10 is opened and
    its episodes are stored, then show 20 is opened and its request fails:
    the shows and the episodes of show 10 are as before, but [status] is
    [loading] and not [error], no error message is set, and the page shows
    the loading text, also after going back to the shows. *)
Theorem openShow_failure_leaves_loading :
  let w := run (H := AsciiHost) sessionFailed initialWorld in
  shows (state w) = [showAlpha; showBeta; showZeta]
  ∧ episodesByShowId (state w) !! "10" = Some sampleEpisodes
  ∧ status (state w) = loading
  ∧ errorMessage (state w) = ""
  ∧ root (dom w) = rootText "Loading…"
  ∧ root (dom (step (H := AsciiHost) w BackClick)) = rootText "Loading…".
Proof. by vm_compute. Qed.
